(** * German-Number-Simplifier: a shallow embedding of [main.py]

    The program is one Python function, [simplify_numbers], with nested
    helpers.  It works on [str] values (sequences of Unicode code points),
    on [float] values (IEEE binary64) and on unbounded [int]s, through the
    [re] module.  The development below embeds each of these layers:

    - [Py]    : exceptions, strings, slicing, [strip]/[split], [str(int)];
    - [Float] : the non-negative binary64 values and the operations used;
    - [Re]    : a backtracking matcher for the fragment of [re] the two
                patterns need, with [match], [finditer] and [sub];
    - the helpers of [simplify_numbers], under their source names.  *)

From Stdlib Require Import String Ascii DecimalString.
From Stdlib Require Decimal DecimalFacts DecimalPos.
From Stdlib Require Import ZArith NArith List Bool Lia.
Import ListNotations.

Set Implicit Arguments.

(* ================================================================== *)
(** ** Python values: exceptions and strings *)

Module Py.

(** The exceptions that the built-ins used by the program can raise. *)
Inductive exn : Type :=
| IndexError
| OverflowError
| ValueError
| ZeroDivisionError.

(** A computation either returns or raises. *)
Inductive result (A : Type) : Type :=
| Ok (a : A)
| Raise (e : exn).

Arguments Ok {A} a.
Arguments Raise {A} e.

Definition bind {A B : Type} (c : result A) (f : A -> result B) : result B :=
  match c with
  | Ok a => f a
  | Raise e => Raise e
  end.

Definition exn_eqb (e1 e2 : exn) : bool :=
  match e1, e2 with
  | IndexError, IndexError
  | OverflowError, OverflowError
  | ValueError, ValueError
  | ZeroDivisionError, ZeroDivisionError => true
  | _, _ => false
  end.

(** [try: c  except e: h] *)
Definition try_except {A : Type} (c : result A) (e : exn) (h : result A)
  : result A :=
  match c with
  | Ok a => Ok a
  | Raise e' => if exn_eqb e' e then h else Raise e'
  end.

(** A character is a Unicode code point; a [str] is a sequence of them. *)
Definition char : Type := N.
Definition str : Type := list char.

(** ASCII literals.  Characters outside ASCII are written as code points. *)
Fixpoint lit (s : string) : str :=
  match s with
  | EmptyString => []
  | String a s' => N_of_ascii a :: lit s'
  end.

Arguments lit s%_string.

Definition a_uml : char := 228%N.   (* U+00E4, a with diaeresis *)
Definition A_uml : char := 196%N.   (* U+00C4 *)
Definition o_uml : char := 246%N.   (* U+00F6 *)
Definition O_uml : char := 214%N.   (* U+00D6 *)
Definition u_uml : char := 252%N.   (* U+00FC *)
Definition U_uml : char := 220%N.   (* U+00DC *)
Definition eszett : char := 223%N.  (* U+00DF *)

Definition chr (s : string) : char :=
  match s with
  | String a _ => N_of_ascii a
  | EmptyString => 0%N
  end.

Arguments chr s%_string.

Fixpoint str_eqb (s t : str) : bool :=
  match s, t with
  | [], [] => true
  | a :: s', b :: t' => N.eqb a b && str_eqb s' t'
  | _, _ => false
  end.

(** [str.isspace] on one character, which is also what [\s], [strip] and
    [split] use: the code points whose bidirectional class is WS, B or S or
    whose category is Zs. *)
Definition isspace (c : char) : bool :=
  ((9 <=? c) && (c <=? 13) || (28 <=? c) && (c <=? 32)
   || (c =? 133) || (c =? 160) || (c =? 5760)
   || (8192 <=? c) && (c <=? 8202)
   || (c =? 8232) || (c =? 8233) || (c =? 8239) || (c =? 8287)
   || (c =? 12288))%N.

(** The decimal digits (category Nd) of Unicode 14.0, the version of
    CPython 3.11: every entry starts a block of ten consecutive code points
    with the values 0 to 9.  [\d] matches exactly these characters and
    [float] reads them with their values. *)
Definition decimal_blocks : list N :=
  [48; 1632; 1776; 1984; 2406; 2534; 2662; 2790; 2918; 3046; 3174; 3302;
   3430; 3558; 3664; 3792; 3872; 4160; 4240; 6112; 6160; 6470; 6608; 6784;
   6800; 6992; 7088; 7232; 7248; 42528; 43216; 43264; 43472; 43504; 43600;
   44016; 65296; 66720; 68912; 69734; 69872; 69942; 70096; 70384; 70736;
   70864; 71248; 71360; 71472; 71904; 72016; 72784; 73040; 73120; 92768;
   92864; 93008; 120782; 120792; 120802; 120812; 120822; 123200; 123632;
   125264; 130032]%N.

Fixpoint digit_in (blocks : list N) (c : char) : option Z :=
  match blocks with
  | [] => None
  | b :: bs =>
      if ((b <=? c) && (c <=? b + 9))%N then Some (Z.of_N (c - b))
      else digit_in bs c
  end.

Definition digit_value (c : char) : option Z := digit_in decimal_blocks c.

Definition isdecimal (c : char) : bool :=
  match digit_value c with Some _ => true | None => false end.

(** Slicing [s[a:b]] with Python's treatment of negative and out-of-range
    bounds: a negative bound counts from the end, and both are clipped. *)
Definition norm_index (len i : Z) : Z :=
  if (i <? 0)%Z then Z.max 0 (i + len) else Z.min i len.

Definition slice (s : str) (a b : Z) : str :=
  let len := Z.of_nat (length s) in
  let a' := norm_index len a in
  let b' := norm_index len b in
  firstn (Z.to_nat (b' - a')) (skipn (Z.to_nat a') s).

(** [s[a:]] *)
Definition slice_from (s : str) (a : Z) : str :=
  slice s a (Z.of_nat (length s)).

(** [s.isspace()]: at least one character and all of them whitespace. *)
Definition str_isspace (s : str) : bool :=
  match s with
  | [] => false
  | _ => forallb isspace s
  end.

Fixpoint lstrip (s : str) : str :=
  match s with
  | c :: s' => if isspace c then lstrip s' else s
  | [] => []
  end.

Definition rstrip (s : str) : str := rev (lstrip (rev s)).

(** [s.strip()] *)
Definition strip (s : str) : str := rstrip (lstrip s).

Fixpoint startswith (s pre : str) : bool :=
  match pre, s with
  | [], _ => true
  | p :: pre', c :: s' => N.eqb c p && startswith s' pre'
  | _ :: _, [] => false
  end.

(** [s.endswith(suf)] *)
Definition endswith (s suf : str) : bool := startswith (rev s) (rev suf).

(** [sub in s] on strings *)
Fixpoint contains (sub s : str) : bool :=
  startswith s sub
  || match s with
     | [] => false
     | _ :: s' => contains sub s'
     end.

(** [w in l] on a list of strings *)
Definition mem (w : str) (l : list str) : bool := existsb (str_eqb w) l.

(** [s.split()]: the maximal runs of non-whitespace characters. [cur] holds
    the run being read, reversed. *)
Fixpoint split_run (s : str) (cur : str) : list str :=
  match s with
  | [] => match cur with [] => [] | _ => [rev cur] end
  | c :: s' =>
      if isspace c
      then match cur with
           | [] => split_run s' []
           | _ => rev cur :: split_run s' []
           end
      else split_run s' (c :: cur)
  end.

Definition split (s : str) : list str := split_run s [].

(** [s.replace(c, t)] for a one-character [c]. *)
Definition replace (s : str) (c : char) (t : str) : str :=
  flat_map (fun x => if N.eqb x c then t else [x]) s.

(** [str(n)] for an [int]. *)
Definition str_of_Z (n : Z) : str := lit (NilZero.string_of_int (Z.to_int n)).

(** The [,] format option on a digit string: a comma between the groups of
    three digits counted from the right.  [ds] is the digit string reversed
    and [k] the number of digits already in the current group. *)
Fixpoint group3 (ds : str) (k : nat) : str :=
  match ds with
  | [] => []
  | d :: ds' =>
      if Nat.eqb k 3 then chr "," :: d :: group3 ds' 1
      else d :: group3 ds' (S k)
  end.

Definition with_commas (digits : str) : str := rev (group3 (rev digits) 0).

(** [f"{n:,}"] for a non-negative [int] *)
Definition format_comma (n : Z) : str := with_commas (str_of_Z n).

End Py.
Import Py.

Notation "x <- c ;; k" := (bind c (fun x => k))
  (at level 61, c at next level, right associativity).


(* ================================================================== *)
(** ** Floats

    Every [float] of the program is read from a string of digits or is the
    quotient of such a value by a positive [int], so only the non-negative
    binary64 values and [inf] are needed.  A finite value is kept as an
    integer significand and a binary exponent; the operations round exactly
    as IEEE 754 does (to nearest, ties to even). *)

Module Float.

Local Open Scope Z_scope.

Inductive float : Type :=
| Fin (m e : Z)     (* the value [m * 2^e] *)
| Inf.

(** The integer nearest to [num / den] for [den > 0], ties to even. *)
Definition round_half_even (num den : Z) : Z :=
  let m := num / den in
  let r := num mod den in
  match 2 * r ?= den with
  | Lt => m
  | Gt => m + 1
  | Eq => if Z.even m then m else m + 1
  end.

(** [2^l <= p / q], for positive [p] and [q]. *)
Definition ge_pow2 (p q l : Z) : bool :=
  if 0 <=? l then q * 2 ^ l <=? p else q <=? p * 2 ^ (- l).

(** The binary64 value nearest to [p / q], for [p >= 0] and [q > 0]:
    53 significant bits, exponents from -1074 (subnormals) to 971, and
    [inf] beyond the largest finite value. *)
Definition of_ratio (p q : Z) : float :=
  if p =? 0 then Fin 0 0
  else
    let l := Z.log2 p - Z.log2 q in
    let lg := if ge_pow2 p q l then l else l - 1 in
    let e := Z.max (lg - 52) (-1074) in
    let num := if 0 <=? e then p else p * 2 ^ (- e) in
    let den := if 0 <=? e then q * 2 ^ e else q in
    let m := round_half_even num den in
    let m' := if m =? 2 ^ 53 then 2 ^ 52 else m in
    let e' := if m =? 2 ^ 53 then e + 1 else e in
    if 971 <? e' then Inf else Fin m' e'.

(** [float(n)] for an [int]: too large an [int] raises. *)
Definition of_Z (n : Z) : result float :=
  match of_ratio n 1 with
  | Inf => Raise OverflowError
  | x => Ok x
  end.

(** Comparison of a float with an [int], which Python makes exactly. *)
Definition compare_Z (x : float) (n : Z) : comparison :=
  match x with
  | Inf => Gt
  | Fin m e => if 0 <=? e then m * 2 ^ e ?= n else m ?= n * 2 ^ (- e)
  end.

Definition eqb_Z (x : float) (n : Z) : bool :=
  match compare_Z x n with Eq => true | _ => false end.
Definition ltb_Z (x : float) (n : Z) : bool :=
  match compare_Z x n with Lt => true | _ => false end.
Definition leb_Z (x : float) (n : Z) : bool :=
  match compare_Z x n with Gt => false | _ => true end.
Definition gtb_Z (x : float) (n : Z) : bool :=
  match compare_Z x n with Gt => true | _ => false end.
Definition geb_Z (x : float) (n : Z) : bool :=
  match compare_Z x n with Lt => false | _ => true end.

(** [round(x)]: the nearest [int], ties to even; [inf] raises. *)
Definition py_round (x : float) : result Z :=
  match x with
  | Inf => Raise OverflowError
  | Fin m e =>
      if 0 <=? e then Ok (m * 2 ^ e) else Ok (round_half_even m (2 ^ (- e)))
  end.

(** [x / n] for a float [x] and an [int] [n]: [n] is converted to a float
    and the quotient is rounded.  The three divisors of the program are
    positive; a zero divisor raises, and negative ones are outside this
    model of the non-negative floats. *)
Definition truediv_int (x : float) (n : Z) : result float :=
  if n <=? 0 then Raise ZeroDivisionError
  else
    y <- of_Z n ;;
    match x, y with
    | Fin m1 e1, Fin m2 e2 =>
        let e0 := Z.min e1 e2 in
        Ok (of_ratio (m1 * 2 ^ (e1 - e0)) (m2 * 2 ^ (e2 - e0)))
    | Inf, _ => Ok Inf
    | Fin _ _, Inf => Ok (Fin 0 0)
    end.

(** The value of a string of decimal digits, [None] when another character
    occurs in it. *)
Fixpoint digits_value (s : str) (acc : Z) : option Z :=
  match s with
  | [] => Some acc
  | c :: s' =>
      match digit_value c with
      | Some d => digits_value s' (10 * acc + d)
      | None => None
      end
  end.

(** The text before the first ['.'] and the text after it, if there is one. *)
Fixpoint split_at_dot (s : str) : str * option str :=
  match s with
  | [] => ([], None)
  | c :: s' =>
      if N.eqb c (chr ".") then ([], Some s')
      else let (a, b) := split_at_dot s' in (c :: a, b)
  end.

(** [float(s)] on the strings the program passes to it: decimal digits with
    at most one ['.'] and at least one digit.  Signs, exponents, blanks,
    underscores and the names [inf] and [nan], which [float] also reads,
    are not modelled: a string with any other character raises
    [ValueError] here. *)
Definition py_float (s : str) : result float :=
  let (ip, fp) := split_at_dot s in
  let fp' := match fp with Some f => f | None => [] end in
  match ip ++ fp' with
  | [] => Raise ValueError
  | ds =>
      match digits_value ds 0 with
      | Some n => Ok (of_ratio n (10 ^ Z.of_nat (length fp')))
      | None => Raise ValueError
      end
  end.

(** [f"{x:,.0f}"]: the digits of the nearest integer, grouped by commas. *)
Definition format_comma_0f (x : float) : str :=
  match x with
  | Inf => lit "inf"
  | Fin m e =>
      with_commas
        (str_of_Z (if 0 <=? e then m * 2 ^ e
                   else round_half_even m (2 ^ (- e))))
  end.

End Float.
Import Float.


(* ================================================================== *)
(** ** Regular expressions

    The fragment of [re] that the four patterns of the program are written
    in, and a backtracking matcher for it: alternatives are tried from left
    to right and [*] is greedy, as in [re]. *)

Module Re.

Inductive regex : Type :=
| Chr (c : char)                 (* one given character *)
| Class (p : char -> bool)       (* [\d], [\s], [[...]] *)
| Empty
| Cat (r1 r2 : regex)
| Alt (r1 r2 : regex)            (* [r1|r2] *)
| Star (r : regex)               (* [r*] *)
| Group (n : nat) (r : regex).   (* the n-th capturing group *)

Definition Plus (r : regex) : regex := Cat r (Star r).
Definition Opt (r : regex) : regex := Alt r Empty.

Fixpoint Str (s : str) : regex :=
  match s with
  | [] => Empty
  | c :: s' => Cat (Chr c) (Str s')
  end.

Fixpoint ngroups (r : regex) : nat :=
  match r with
  | Cat r1 r2 | Alt r1 r2 => ngroups r1 + ngroups r2
  | Star r1 => ngroups r1
  | Group _ r1 => S (ngroups r1)
  | _ => 0
  end.

(** The spans of the groups matched so far, the latest first. *)
Definition captures : Type := list (nat * (nat * nat)).

Fixpoint lookup (n : nat) (caps : captures) : option (nat * nat) :=
  match caps with
  | [] => None
  | (k, span) :: caps' => if Nat.eqb k n then Some span else lookup n caps'
  end.

Section Matcher.

Variable A : Type.

(** What remains to be matched: it receives the position reached, the
    text from there on and the captures. *)
Definition cont : Type := nat -> str -> captures -> option A.

(** Greedy repetition of [step]: one more round if it succeeds and moves
    forward, none otherwise.  No round can follow once [fuel], the
    number of characters left at the start, is used up. *)
Fixpoint star_loop (step : nat -> str -> captures -> cont -> option A)
         (fuel : nat) (pos : nat) (rest : str) (caps : captures) (k : cont)
  : option A :=
  match fuel with
  | 0 => k pos rest caps
  | S fuel' =>
      match step pos rest caps
              (fun pos' rest' caps' =>
                 if Nat.eqb pos' pos then None
                 else star_loop step fuel' pos' rest' caps' k) with
      | Some x => Some x
      | None => k pos rest caps
      end
  end.

Fixpoint run (r : regex) (pos : nat) (rest : str) (caps : captures)
         (k : cont) : option A :=
  match r with
  | Chr c =>
      match rest with
      | x :: rest' => if N.eqb x c then k (S pos) rest' caps else None
      | [] => None
      end
  | Class p =>
      match rest with
      | x :: rest' => if p x then k (S pos) rest' caps else None
      | [] => None
      end
  | Empty => k pos rest caps
  | Cat r1 r2 =>
      run r1 pos rest caps
        (fun pos' rest' caps' => run r2 pos' rest' caps' k)
  | Alt r1 r2 =>
      match run r1 pos rest caps k with
      | Some x => Some x
      | None => run r2 pos rest caps k
      end
  | Star r1 => star_loop (run r1) (length rest) pos rest caps k
  | Group n r1 =>
      run r1 pos rest caps
        (fun pos' rest' caps' => k pos' rest' ((n, (pos, pos')) :: caps'))
  end.

End Matcher.

(** A match object. *)
Record match_obj : Type := Match {
  m_string : str;
  m_start : nat;
  m_end : nat;
  m_caps : captures;
  m_ngroups : nat
}.

(** [m.group(n)].  A group that took no part in the match gives the empty
    string here ([None] in Python); the groups of the program's patterns
    take part in every match. *)
Definition group (m : match_obj) (n : nat) : str :=
  match n with
  | 0 => slice (m_string m) (Z.of_nat (m_start m)) (Z.of_nat (m_end m))
  | _ =>
      match lookup n (m_caps m) with
      | Some (a, b) => slice (m_string m) (Z.of_nat a) (Z.of_nat b)
      | None => []
      end
  end.

(** A match of [r] in [text] that starts at [pos], where [rest] is the text
    from [pos] on. *)
Definition match_here (r : regex) (text : str) (pos : nat) (rest : str)
  : option match_obj :=
  run r pos rest [] (fun e _ caps => Some (Match text pos e caps (ngroups r))).

(** [re.match(r, text)] *)
Definition re_match (r : regex) (text : str) : option match_obj :=
  match_here r text 0 text.

(** The leftmost match that starts at [pos] or later. *)
Fixpoint search_in (r : regex) (text : str) (pos : nat) (rest : str)
  : option match_obj :=
  match match_here r text pos rest with
  | Some m => Some m
  | None =>
      match rest with
      | [] => None
      | _ :: rest' => search_in r text (S pos) rest'
      end
  end.

Definition search (r : regex) (text : str) (pos : nat) : option match_obj :=
  if Nat.leb pos (length text) then search_in r text pos (skipn pos text)
  else None.

(** The successive non-overlapping matches, from left to right.  The scan
    resumes where a match ended, one character further after an empty
    match. *)
Fixpoint finditer_from (fuel : nat) (r : regex) (text : str) (pos : nat)
  : list match_obj :=
  match fuel with
  | 0 => []
  | S fuel' =>
      match search r text pos with
      | None => []
      | Some m =>
          m :: finditer_from fuel' r text
                 (if Nat.eqb (m_end m) (m_start m) then S (m_end m)
                  else m_end m)
      end
  end.

(** [re.finditer(r, text)] *)
Definition finditer (r : regex) (text : str) : list match_obj :=
  finditer_from (S (length text)) r text 0.

(** The text of [re.sub] from offset [last] on: the gap before each match,
    what [repl] returns for it, and the text after the last match. *)
Fixpoint sub_from (repl : match_obj -> result str) (text : str)
         (ms : list match_obj) (last : nat) : result str :=
  match ms with
  | [] => Ok (slice_from text (Z.of_nat last))
  | m :: ms' =>
      s <- repl m ;;
      tail <- sub_from repl text ms' (m_end m) ;;
      Ok (slice text (Z.of_nat last) (Z.of_nat (m_start m)) ++ s ++ tail)
  end.

(** [re.sub(r, repl, text)] with a function [repl] *)
Definition sub (r : regex) (repl : match_obj -> result str) (text : str)
  : result str :=
  sub_from repl text (finditer r text) 0.

End Re.
Import Re.

(* ================================================================== *)
(** ** The program: [simplify_numbers] and its nested helpers

    The helpers are closures over the variable [text] of
    [simplify_numbers]; here they take it as their first argument. *)

Local Open Scope Z_scope.

Definition comma : char := chr ",".
Definition dot : char := chr ".".

(** Convert German number format (1.234,56) to float: the dots are removed
    and the comma becomes a dot. *)
Definition convert_german_number (number_str : str) : result float :=
  let clean_num := replace (replace number_str dot []) comma [dot] in
  py_float clean_num.

(** Format number with German thousands separator for numbers >= 1000,
    and without separators when [is_count] is false. *)
Definition format_german_number (number : Z) (is_count : bool) : str :=
  if negb is_count then str_of_Z number
  else if 1000 <=? number then replace (format_comma number) comma [dot]
  else str_of_Z number.

(** Round to nearest significant number for simplification. *)
Definition round_to_significant (number : float) : result Z :=
  if ltb_Z number 100 then py_round number
  else
    let num_str := replace (format_comma_0f number) comma [] in
    let num_length := Z.of_nat (length num_str) in
    if geb_Z number 100000 then
      let magnitude := 10 ^ (num_length - 3) in
      q <- truediv_int number magnitude ;;
      n <- py_round q ;;
      Ok (n * magnitude)
    else if geb_Z number 1000 then
      q <- truediv_int number 1000 ;;
      n <- py_round q ;;
      Ok (n * 1000)
    else
      q <- truediv_int number 100 ;;
      n <- py_round q ;;
      Ok (n * 100).

(** Convert percentage to descriptive text. *)
Definition simplify_percentage (m : match_obj) : result str :=
  number <- py_float (replace (group m 1) comma [dot]) ;;
  if eqb_Z number 25 then Ok (lit "jeder Vierte")
  else if eqb_Z number 50 then Ok (lit "die H" ++ [a_uml] ++ lit "lfte")
  else if eqb_Z number 75 then Ok (lit "drei von vier")
  else if geb_Z number 90 then Ok (lit "fast alle")
  else if gtb_Z number 50
       then Ok (lit "mehr als die H" ++ [a_uml] ++ lit "lfte")
  else if leb_Z number 15 then Ok (lit "wenige")
  else
    n <- py_round number ;;
    Ok (lit "etwa " ++ str_of_Z n ++ lit " Prozent").

(** Determine if a number is likely to be a year based on context and
    value. *)
Definition looks_like_year (text : str) (pos : nat) (number : Z) : bool :=
  let before_text := strip (slice text 0 (Z.of_nat pos)) in
  if endswith before_text (lit "Jahr ") || endswith before_text (lit "Jahre ")
  then false
  else if (1900 <=? number) && (number <=? 2100) then true
  else false.

(** Simplify regular numbers.  The [try] block holds everything after the
    first statement. *)
Definition simplify_regular_number (text : str) (m : match_obj)
           (text_pos : nat) : result str :=
  let number_str := group m 1 in
  try_except
    (number <- convert_german_number number_str ;;
     rounded <- round_to_significant number ;;
     let suffix := if Nat.ltb 1 (m_ngroups m) then group m 2 else [] in
     n <- py_round number ;;
     let is_count := negb (looks_like_year text text_pos n) in
     Ok (lit "etwa " ++ format_german_number rounded is_count
           ++ match suffix with
              | [] => []
              | _ => lit " " ++ suffix
              end))
    ValueError
    (Ok number_str).

Definition months : list str :=
  [lit "Januar"; lit "Februar"; lit "M" ++ [a_uml] ++ lit "rz"; lit "April";
   lit "Mai"; lit "Juni"; lit "Juli"; lit "August"; lit "September";
   lit "Oktober"; lit "November"; lit "Dezember"].

(** [\d+\.] *)
Definition day_pattern : regex := Cat (Plus (Class isdecimal)) (Chr dot).

(** [\d+] *)
Definition digits_pattern : regex := Plus (Class isdecimal).

(** Check if number at position is part of a date. *)
Definition is_part_of_date (text : str) (pos : nat) : bool :=
  let p := Z.of_nat pos in
  if (0 <? p) && str_isspace (slice text (p - 2) p)
     && match re_match day_pattern (slice text p (p + 4)) with
        | Some _ => true
        | None => false
        end
  then true
  else
    let next_words := split (slice text p (p + 50)) in
    match next_words with
    | [] => false
    | w0 :: ws =>
        mem w0 months
        || match ws with
           | w1 :: _ => mem w1 months
           | [] => false
           end
    end.

(** Check if number at position appears to be a year. *)
Definition is_year (text : str) (pos : nat) : result bool :=
  let before_text := strip (slice text 0 (Z.of_nat pos)) in
  match re_match digits_pattern (slice_from text (Z.of_nat pos)) with
  | None => Ok false
  | Some number_match =>
      let number := group number_match 0 in
      if endswith before_text (lit "Jahr") then Ok true
      else if Nat.eqb (length number) 4
              && (startswith number (lit "19") || startswith number (lit "20"))
      then
        let before_words := split before_text in
        (* [before_words[-1]] is evaluated for the first month *)
        match rev before_words with
        | [] => Raise IndexError
        | last_word :: _ =>
            Ok (existsb (fun month => contains month last_word) months)
        end
      else Ok false
  end.

(** [(\d+(?:,\d+)?)\s*Prozent] *)
Definition percent_pattern : regex :=
  Cat (Group 1 (Cat (Plus (Class isdecimal))
                    (Opt (Cat (Chr comma) (Plus (Class isdecimal))))))
      (Cat (Star (Class isspace)) (Str (lit "Prozent"))).

(** [[A-Za-zÄäÖöÜüß]] *)
Definition is_letter (c : char) : bool :=
  ((65 <=? c) && (c <=? 90) || (97 <=? c) && (c <=? 122)
   || (c =? A_uml) || (c =? a_uml) || (c =? O_uml) || (c =? o_uml)
   || (c =? U_uml) || (c =? u_uml) || (c =? eszett))%N.

(** [(\d+(?:\.\d+)*(?:,\d+)?)\s*((?:Euro|[A-Za-zÄäÖöÜüß]+)?)] *)
Definition pattern : regex :=
  Cat (Group 1 (Cat (Plus (Class isdecimal))
               (Cat (Star (Cat (Chr dot) (Plus (Class isdecimal))))
                    (Opt (Cat (Chr comma) (Plus (Class isdecimal)))))))
      (Cat (Star (Class isspace))
           (Group 2 (Opt (Alt (Str (lit "Euro")) (Plus (Class is_letter)))))).

(** What one round of the loop appends for the match [m], after the gap. *)
Definition rewrite_match (text : str) (m : match_obj) : result str :=
  let start := m_start m in
  date_or_year <-
    (if is_part_of_date text start then Ok true else is_year text start) ;;
  if negb date_or_year then simplify_regular_number text m start
  else Ok (group m 0).

(** The [for] loop over the matches, on the variables [result] and
    [last_end], and the statement after it. *)
Fixpoint number_loop (text : str) (ms : list match_obj) (result : str)
         (last_end : nat) : Py.result str :=
  match ms with
  | [] => Ok (result ++ slice_from text (Z.of_nat last_end))
  | m :: ms' =>
      let start := m_start m in
      let result := result ++ slice text (Z.of_nat last_end) (Z.of_nat start) in
      s <- rewrite_match text m ;;
      number_loop text ms' (result ++ s) (m_end m)
  end.

(** The second step of [simplify_numbers], on the text that the
    replacement of the percentages has produced. *)
Definition quantity_pass (text : str) : result str :=
  number_loop text (finditer pattern text) [] 0.

(** The body of [simplify_numbers]: the percentages are replaced first, the
    other numbers in the text that results. *)
Definition simplify_numbers (raw_text : str) : result str :=
  let text := raw_text in
  text <- sub percent_pattern simplify_percentage text ;;
  quantity_pass text.


(* ================================================================== *)
(** ** Notions used to state the properties *)

(** Order between the value of a float and an integer. *)
Definition feq (x : float) (n : Z) : Prop := compare_Z x n = Eq.
Definition flt (x : float) (n : Z) : Prop := compare_Z x n = Lt.
Definition fgt (x : float) (n : Z) : Prop := compare_Z x n = Gt.
Definition fle (x : float) (n : Z) : Prop := compare_Z x n <> Gt.
Definition fge (x : float) (n : Z) : Prop := compare_Z x n <> Lt.

(** [n] is an integer nearest to the value [m * 2^e] of [x], that is
    [|x - n| <= 1/2]; for [e < 0] both sides are scaled by [2^(-e)]. *)
Definition is_nearest (x : float) (n : Z) : Prop :=
  match x with
  | Inf => False
  | Fin m e =>
      if 0 <=? e then n = m * 2 ^ e
      else 2 * Z.abs (m - n * 2 ^ (- e)) <= 2 ^ (- e)
  end.

(** [x] lies halfway between [n] and a neighbour of [n]. *)
Definition is_tie (x : float) (n : Z) : Prop :=
  match x with
  | Inf => False
  | Fin m e => e < 0 /\ 2 * Z.abs (m - n * 2 ^ (- e)) = 2 ^ (- e)
  end.


(** The matches lie in the text from [last] on, from left to right and
    without overlap. *)
Fixpoint spans_ok (len last : nat) (ms : list match_obj) : Prop :=
  match ms with
  | [] => True
  | m :: ms' =>
      (last <= m_start m)%nat /\ (m_start m <= m_end m)%nat
      /\ (m_end m <= len)%nat /\ spans_ok len (m_end m) ms'
  end.

(** The text from [last] on in which every match is replaced by the string
    paired with it: the gaps of [text] between the matches, each followed
    by the string for the match, and the rest of [text] after the last. *)
Fixpoint assemble (text : str) (last : nat) (parts : list (match_obj * str))
  : str :=
  match parts with
  | [] => slice_from text (Z.of_nat last)
  | (m, s) :: parts' =>
      slice text (Z.of_nat last) (Z.of_nat (m_start m))
        ++ s ++ assemble text (m_end m) parts'
  end.

(** The words "the text before the token ends in [Jahr ] or [Jahre ]". *)
Definition after_Jahr (text : str) (pos : nat) : bool :=
  let before := slice text 0 (Z.of_nat pos) in
  endswith before (lit "Jahr ") || endswith before (lit "Jahre ").

(** The suffix that [simplify_regular_number] appends for the match. *)
Definition suffix_text (m : match_obj) : str :=
  match group m 2 with
  | [] => []
  | suffix => lit " " ++ suffix
  end.

(** The character of [text] at offset [i]. *)
Definition char_at (text : str) (i : nat) : option char := nth_error text i.

Definition is_space_at (text : str) (i : nat) : Prop :=
  exists c, char_at text i = Some c /\ isspace c = true.

(** [s] begins with decimal digits and a dot; in a window of four
    characters these are one to three digits. *)
Definition starts_with_day (s : str) : Prop :=
  exists ds tail,
    s = ds ++ dot :: tail /\ ds <> [] /\ Forall (fun c => isdecimal c = true) ds.

(** No character of [s] is a decimal digit. *)
Definition digit_free (s : str) : Prop :=
  Forall (fun c => isdecimal c = false) s.

(** The match of [percent_pattern] in "25 Prozent" and the float [25.0]. *)
Definition match_25_Prozent : match_obj :=
  Match (lit "25 Prozent") 0 10 [(1, (0, 2))]%nat 1.

(** The float [2.5], as [convert_german_number] reads it from "2,5". *)
Definition two_and_a_half : float := Fin 5629499534213120 (-51).

(** The first match of [pattern] in a text, for the examples. *)
Definition first_match (text : str) : match_obj :=
  hd (Match [] 0 0 [] 0) (finditer pattern text).

(** The rule of C9 in the words of the claim: a token that has a whitespace
    character just before it and a day such as "1." at its start is emitted
    as it stands. *)
Definition day_rule_as_stated (text : str) : Prop :=
  forall m : match_obj,
    In m (finditer pattern text) ->
    (0 < m_start m)%nat ->
    is_space_at text (m_start m - 1) ->
    starts_with_day
      (slice text (Z.of_nat (m_start m)) (Z.of_nat (m_start m) + 4)) ->
    rewrite_match text m = Ok (group m 0).

(** The ten ASCII digits. *)
Definition is_ascii_digit (c : char) : bool := ((48 <=? c) && (c <=? 57))%N.

(** The value of a decimal number read from its first digit on, after the
    digits already read with value [acc]. *)
Fixpoint uint_value (d : Decimal.uint) (acc : Z) : Z :=
  match d with
  | Decimal.Nil => acc
  | Decimal.D0 d => uint_value d (10 * acc)
  | Decimal.D1 d => uint_value d (10 * acc + 1)
  | Decimal.D2 d => uint_value d (10 * acc + 2)
  | Decimal.D3 d => uint_value d (10 * acc + 3)
  | Decimal.D4 d => uint_value d (10 * acc + 4)
  | Decimal.D5 d => uint_value d (10 * acc + 5)
  | Decimal.D6 d => uint_value d (10 * acc + 6)
  | Decimal.D7 d => uint_value d (10 * acc + 7)
  | Decimal.D8 d => uint_value d (10 * acc + 8)
  | Decimal.D9 d => uint_value d (10 * acc + 9)
  end.

(** An ASCII digit, as a character predicate on [Prop]. *)
Definition ascii_digit (c : char) : Prop := (48 <= c <= 57)%N.

(** Every character of [s] is whitespace. *)
Definition all_space (s : str) : Prop := Forall (fun c => isspace c = true) s.

(** The strings that a regular expression matches. *)
Inductive matches : regex -> str -> Prop :=
| M_chr (c : char) : matches (Chr c) [c]
| M_class (p : char -> bool) (c : char) : p c = true -> matches (Class p) [c]
| M_empty : matches Empty []
| M_cat (r1 r2 : regex) (s1 s2 : str) :
    matches r1 s1 -> matches r2 s2 -> matches (Cat r1 r2) (s1 ++ s2)
| M_alt_l (r1 r2 : regex) (s : str) : matches r1 s -> matches (Alt r1 r2) s
| M_alt_r (r1 r2 : regex) (s : str) : matches r2 s -> matches (Alt r1 r2) s
| M_star_nil (r : regex) : matches (Star r) []
| M_star_cons (r : regex) (s1 s2 : str) :
    matches r s1 -> matches (Star r) s2 -> matches (Star r) (s1 ++ s2)
| M_group (n : nat) (r : regex) (s : str) :
    matches r s -> matches (Group n r) s.

(** The capturing groups of a regular expression, with their numbers. *)
Fixpoint groups (r : regex) : list (nat * regex) :=
  match r with
  | Cat r1 r2 | Alt r1 r2 => groups r1 ++ groups r2
  | Star r1 => groups r1
  | Group n r1 => (n, r1) :: groups r1
  | _ => []
  end.

(** The numbers of the groups that take part in every match. *)
Fixpoint sure_groups (r : regex) : list nat :=
  match r with
  | Cat r1 r2 => sure_groups r1 ++ sure_groups r2
  | Group n r1 => n :: sure_groups r1
  | _ => []
  end.

(** A recorded span lies in the text and holds a string that a group of
    that number in [G] matches. *)
Definition span_ok (G : list (nat * regex)) (text : str)
           (c : nat * (nat * nat)) : Prop :=
  let '(n, (a, b)) := c in
  (a <= b)%nat /\ (b <= length text)%nat
  /\ exists r, In (n, r) G /\ matches r (firstn (b - a) (skipn a text)).

Definition caps_ok (G : list (nat * regex)) (text : str) (caps : captures)
  : Prop :=
  Forall (span_ok G text) caps.

(** The captures [caps'] have a span for every group that has one in
    [caps]. *)
Definition keeps (caps caps' : captures) : Prop :=
  forall n, lookup n caps <> None -> lookup n caps' <> None.

Definition has_groups (ns : list nat) (caps : captures) : Prop :=
  forall n, In n ns -> lookup n caps <> None.

(** [\d+(?:\.\d+)*(?:,\d+)?], the first group of [pattern]. *)
Definition numeral_re : regex :=
  Cat (Plus (Class isdecimal))
      (Cat (Star (Cat (Chr dot) (Plus (Class isdecimal))))
           (Opt (Cat (Chr comma) (Plus (Class isdecimal))))).

(** [\d+(?:,\d+)?], the group of [percent_pattern]. *)
Definition percent_numeral_re : regex :=
  Cat (Plus (Class isdecimal))
      (Opt (Cat (Chr comma) (Plus (Class isdecimal)))).

(** [(?:Euro|[A-Za-z...]+)?], the second group of [pattern]. *)
Definition suffix_re : regex :=
  Opt (Alt (Str (lit "Euro")) (Plus (Class is_letter))).

(** Decimal digits, with a dot and more digits after them or without. *)
Definition decimal_literal (s : str) : Prop :=
  exists ip fp,
    ip <> []
    /\ Forall (fun c => isdecimal c = true) ip
    /\ Forall (fun c => isdecimal c = true) fp
    /\ (s = ip \/ (fp <> [] /\ s = ip ++ dot :: fp)).

(** The integer nearest to a finite float, ties to even: what [round] and
    the format [.0f] compute. *)
Definition nearest_integer (m e : Z) : Z :=
  if 0 <=? e then m * 2 ^ e else round_half_even m (2 ^ (- e)).

(** A finite float as a fraction: [fnum m e / fden e] is [m * 2^e], with a
    positive denominator. *)
Definition fnum (m e : Z) : Z := m * 2 ^ Z.max 0 e.
Definition fden (e : Z) : Z := 2 ^ Z.max 0 (- e).

(** [p / q < 2^k], for positive [p] and [q] and any integer [k]. *)
Definition below_pow2 (p q k : Z) : Prop :=
  if 0 <=? k then p < q * 2 ^ k else p * 2 ^ (- k) < q.

(** The token [m] of [text] makes the loop raise [e]: it is not part of a
    date, and either [is_year] raises at it or it is no year and its
    numeral is read as [inf]. *)
Definition raising_token (text : str) (m : match_obj) (e : exn) : Prop :=
  In m (finditer pattern text)
  /\ is_part_of_date text (m_start m) = false
  /\ ((e = IndexError /\ is_year text (m_start m) = Raise IndexError)
      \/ (e = OverflowError
          /\ is_year text (m_start m) = Ok false
          /\ convert_german_number (group m 1) = Ok Inf)).

(** The test cases of the script. *)
Definition test_cases : list str :=
  [lit "324.620,22 Euro wurden gespendet.";
   lit "1.897 Menschen nahmen teil.";
   lit "25 Prozent der Bev" ++ [o_uml] ++ lit "lkerung sind betroffen.";
   lit "90 Prozent stimmten zu.";
   lit "14 Prozent lehnten ab.";
   lit "Bei 38,7 Grad Celsius ist es sehr hei" ++ [eszett] ++ lit ".";
   lit "denn die Rente steigt um 4,57 Prozent.";
   lit "Im Jahr 2024 gab es 1.234 Ereignisse.";
   lit "Am 1. Januar 2024 waren es 5.678 Teilnehmer.";
   lit "Im Jahr 2025 gab es 2018 Ereignisse."].

(** The loop that runs the test cases: the lines printed so far, and the
    exception that ends the script if a call raises. *)
Fixpoint run_tests (tests : list str) (stdout : list str)
  : list str * option exn :=
  match tests with
  | [] => (stdout, None)
  | test :: tests' =>
      match simplify_numbers test with
      | Ok line => run_tests tests' (stdout ++ [line])
      | Raise e => (stdout, Some e)
      end
  end.

(* ================================================================== *)
(** ** Strings and slices *)

Lemma slice_nat (s : str) (a b : nat) :
  (a <= b)%nat -> (b <= length s)%nat ->
  slice s (Z.of_nat a) (Z.of_nat b) = firstn (b - a) (skipn a s).
Proof.
  intros Hab Hb. unfold slice, norm_index.
  destruct (Z.ltb_spec (Z.of_nat a) 0); [lia|].
  destruct (Z.ltb_spec (Z.of_nat b) 0); [lia|].
  rewrite !Z.min_l by lia.
  replace (Z.to_nat (Z.of_nat b - Z.of_nat a)) with (b - a)%nat by lia.
  now rewrite Nat2Z.id.
Qed.

Lemma slice_from_nat (s : str) (a : nat) :
  (a <= length s)%nat -> slice_from s (Z.of_nat a) = skipn a s.
Proof.
  intros Ha. unfold slice_from. rewrite slice_nat by lia.
  apply firstn_all2. rewrite length_skipn. lia.
Qed.

Lemma slice_from_0 (s : str) : slice_from s 0 = s.
Proof. exact (slice_from_nat s (Nat.le_0_l _)). Qed.

Lemma skipn_split (s : str) (a b : nat) :
  (a <= b)%nat -> (b <= length s)%nat ->
  skipn a s = firstn (b - a) (skipn a s) ++ skipn b s.
Proof.
  intros Hab Hb.
  rewrite <- (firstn_skipn (b - a) (skipn a s)) at 1.
  f_equal. rewrite skipn_skipn. f_equal. lia.
Qed.

Lemma lstrip_head (s : str) :
  match lstrip s with
  | [] => True
  | c :: _ => isspace c = false
  end.
Proof.
  induction s as [|c s IH]; simpl; [exact I|].
  destruct (isspace c) eqn:E; [exact IH | exact E].
Qed.

(** A stripped string does not end in a whitespace character. *)
Lemma endswith_strip_space (s suf : str) (c : char) :
  isspace c = true -> endswith (strip s) (suf ++ [c]) = false.
Proof.
  intros Hc. unfold endswith, strip, rstrip.
  rewrite rev_involutive, rev_app_distr. simpl.
  pose proof (lstrip_head (rev (lstrip s))) as H.
  destruct (lstrip (rev (lstrip s))) as [|x t]; [reflexivity|].
  simpl. destruct (N.eqb_spec x c) as [->|]; [congruence | reflexivity].
Qed.

Lemma looks_like_year_range (text : str) (pos : nat) (n : Z) :
  looks_like_year text pos n = (1900 <=? n) && (n <=? 2100).
Proof.
  unfold looks_like_year.
  rewrite (endswith_strip_space _ (lit "Jahr") (chr " ")) by reflexivity.
  rewrite (endswith_strip_space _ (lit "Jahre") (chr " ")) by reflexivity.
  simpl. now destruct ((1900 <=? n) && (n <=? 2100)).
Qed.

(* ================================================================== *)
(** ** The matcher moves forward and stays inside the text *)

Section RunSound.

Variable A : Type.

(** Whenever a matcher succeeds it has called its continuation at a
    position further on, with the text that remains there. *)
Definition forward (step : nat -> str -> captures -> cont A -> option A)
  : Prop :=
  forall pos rest caps k x,
    step pos rest caps k = Some x ->
    exists pos' rest' caps',
      k pos' rest' caps' = Some x
      /\ (pos <= pos')%nat
      /\ (pos' + length rest' = pos + length rest)%nat.

Lemma star_loop_forward step :
  forward step -> forall fuel, forward (star_loop step fuel).
Proof.
  intros Hstep fuel.
  induction fuel as [|fuel IH]; intros pos rest caps k x H; simpl in H.
  - exists pos, rest, caps. auto.
  - destruct (step pos rest caps _) as [y|] eqn:E.
    + injection H as ->.
      apply Hstep in E. destruct E as (p1 & r1 & c1 & E & Hle & Hlen).
      destruct (Nat.eqb p1 pos); [discriminate|].
      apply IH in E. destruct E as (p2 & r2 & c2 & E & Hle2 & Hlen2).
      exists p2, r2, c2. repeat split; [exact E | lia | lia].
    + exists pos, rest, caps. auto.
Qed.

Lemma run_forward (r : regex) : forward (run (A:=A) r).
Proof.
  induction r as [c | p | | r1 IH1 r2 IH2 | r1 IH1 r2 IH2 | r1 IH1 | n r1 IH1];
    intros pos rest caps k x H; simpl in H.
  - destruct rest as [|y rest]; [discriminate|].
    destruct (N.eqb y c); [|discriminate].
    exists (S pos), rest, caps. simpl. repeat split; [exact H | lia | lia].
  - destruct rest as [|y rest]; [discriminate|].
    destruct (p y); [|discriminate].
    exists (S pos), rest, caps. simpl. repeat split; [exact H | lia | lia].
  - exists pos, rest, caps. auto.
  - apply IH1 in H. destruct H as (p1 & t1 & c1 & H & Hle & Hlen).
    apply IH2 in H. destruct H as (p2 & t2 & c2 & H & Hle2 & Hlen2).
    exists p2, t2, c2. repeat split; [exact H | lia | lia].
  - destruct (run r1 pos rest caps k) as [y|] eqn:E.
    + injection H as ->. now apply IH1 in E.
    + now apply IH2 in H.
  - now apply (star_loop_forward IH1) in H.
  - apply IH1 in H. destruct H as (p1 & t1 & c1 & H & Hle & Hlen).
    exists p1, t1, ((n, (pos, p1)) :: c1). auto.
Qed.

End RunSound.

Lemma match_here_span (r : regex) (text : str) (pos : nat) (rest : str)
      (m : match_obj) :
  match_here r text pos rest = Some m ->
  m_string m = text /\ m_start m = pos /\ m_ngroups m = ngroups r
  /\ (pos <= m_end m)%nat /\ (m_end m <= pos + length rest)%nat.
Proof.
  unfold match_here. intros H. apply run_forward in H.
  destruct H as (e & t & c & H & Hle & Hlen).
  injection H as <-. simpl. repeat split; lia.
Qed.

Lemma search_in_span (r : regex) (text : str) (rest : str) :
  forall pos m,
    search_in r text pos rest = Some m ->
    m_string m = text /\ m_ngroups m = ngroups r
    /\ (pos <= m_start m)%nat /\ (m_start m <= m_end m)%nat
    /\ (m_end m <= pos + length rest)%nat.
Proof.
  induction rest as [|c rest IH]; intros pos m H; simpl in H.
  - destruct (match_here r text pos []) eqn:E; [|discriminate].
    injection H as ->. apply match_here_span in E. simpl in E. intuition lia.
  - destruct (match_here r text pos (c :: rest)) eqn:E.
    + injection H as ->. apply match_here_span in E. simpl in E.
      intuition lia.
    + apply IH in H. simpl. intuition lia.
Qed.

Lemma search_span (r : regex) (text : str) (pos : nat) (m : match_obj) :
  search r text pos = Some m ->
  m_string m = text /\ m_ngroups m = ngroups r
  /\ (pos <= m_start m)%nat /\ (m_start m <= m_end m)%nat
  /\ (m_end m <= length text)%nat.
Proof.
  unfold search. destruct (Nat.leb_spec pos (length text)) as [Hp|Hp];
    [|discriminate].
  intros H. apply search_in_span in H. rewrite length_skipn in H.
  intuition lia.
Qed.

Lemma spans_ok_weaken (len : nat) (ms : list match_obj) (a b : nat) :
  (a <= b)%nat -> spans_ok len b ms -> spans_ok len a ms.
Proof. destruct ms; simpl; intuition lia. Qed.

Lemma finditer_from_spans (r : regex) (text : str) (fuel : nat) :
  forall pos,
    spans_ok (length text) pos (finditer_from fuel r text pos)
    /\ Forall (fun m => m_string m = text /\ m_ngroups m = ngroups r)
              (finditer_from fuel r text pos).
Proof.
  induction fuel as [|fuel IH]; intros pos; simpl; [auto|].
  destruct (search r text pos) as [m|] eqn:E; simpl; [|auto].
  apply search_span in E. destruct E as (Hs & Hn & H1 & H2 & H3).
  destruct (IH (if Nat.eqb (m_end m) (m_start m) then S (m_end m)
                else m_end m)) as [IHa IHb].
  split.
  - repeat split; try assumption.
    eapply spans_ok_weaken; [|exact IHa].
    destruct (Nat.eqb (m_end m) (m_start m)); lia.
  - constructor; auto.
Qed.

(** The fuel of [finditer] is never used up: each match ends further on
    than the scan started, so more fuel finds no more matches. *)
Lemma finditer_from_fuel (r : regex) (text : str) (fuel : nat) :
  forall pos,
    (length text < fuel + pos)%nat ->
    finditer_from (S fuel) r text pos = finditer_from fuel r text pos.
Proof.
  induction fuel as [|fuel IH]; intros pos Hlt.
  - simpl. unfold search.
    destruct (Nat.leb_spec pos (length text)); [lia | reflexivity].
  - change (finditer_from (S (S fuel)) r text pos)
      with (match search r text pos with
            | None => []
            | Some m =>
                m :: finditer_from (S fuel) r text
                       (if Nat.eqb (m_end m) (m_start m) then S (m_end m)
                        else m_end m)
            end).
    change (finditer_from (S fuel) r text pos)
      with (match search r text pos with
            | None => []
            | Some m =>
                m :: finditer_from fuel r text
                       (if Nat.eqb (m_end m) (m_start m) then S (m_end m)
                        else m_end m)
            end).
    destruct (search r text pos) as [m|] eqn:E; [|reflexivity].
    f_equal. apply IH. apply search_span in E.
    destruct (Nat.eqb_spec (m_end m) (m_start m)); lia.
Qed.

Lemma finditer_fuel_enough (r : regex) (text : str) (k : nat) :
  finditer_from (S (length text) + k) r text 0 = finditer r text.
Proof.
  induction k as [|k IH]; [now rewrite Nat.add_0_r|].
  rewrite Nat.add_succ_r, finditer_from_fuel by lia. exact IH.
Qed.

(* ================================================================== *)
(** ** The loop of [simplify_numbers] *)

Lemma number_loop_assemble (text : str) (ms : list match_obj) :
  forall acc last out,
    number_loop text ms acc last = Ok out ->
    exists reps,
      Forall2 (fun m s => rewrite_match text m = Ok s) ms reps
      /\ out = acc ++ assemble text last (combine ms reps).
Proof.
  induction ms as [|m ms IH]; intros acc last out H; simpl in H.
  - injection H as <-. exists []. split; [constructor | reflexivity].
  - destruct (rewrite_match text m) as [s|e] eqn:E; simpl in H;
      [|discriminate].
    apply IH in H. destruct H as (reps & Hreps & ->).
    exists (s :: reps). split; [now constructor|].
    simpl. now rewrite <- !app_assoc.
Qed.

Lemma assemble_matches (text : str) (ms : list match_obj) :
  forall last,
    (last <= length text)%nat ->
    spans_ok (length text) last ms ->
    Forall (fun m => m_string m = text) ms ->
    skipn last text
    = assemble text last (combine ms (map (fun m => group m 0) ms)).
Proof.
  induction ms as [|m ms IH]; intros last Hlast Hok Hstr;
    cbn [assemble combine map].
  - now rewrite slice_from_nat.
  - destruct Hok as (H1 & H2 & H3 & Hok).
    apply Forall_cons_iff in Hstr. destruct Hstr as [Hm Hstr'].
    rewrite <- (IH (m_end m) H3 Hok Hstr').
    unfold group. rewrite Hm. rewrite !slice_nat by lia.
    rewrite (skipn_split text (a:=last) (b:=m_start m)) at 1 by lia.
    f_equal. apply skipn_split; lia.
Qed.

(* ================================================================== *)
(** ** Text without decimal digits *)

Lemma percent_pattern_needs_digit (text : str) (pos : nat) (rest : str) :
  match rest with [] => True | c :: _ => isdecimal c = false end ->
  match_here percent_pattern text pos rest = None.
Proof.
  unfold match_here, percent_pattern, Plus. simpl.
  destruct rest as [|c rest]; [reflexivity|]. now intros ->.
Qed.

Lemma pattern_needs_digit (text : str) (pos : nat) (rest : str) :
  match rest with [] => True | c :: _ => isdecimal c = false end ->
  match_here pattern text pos rest = None.
Proof.
  unfold match_here, pattern, Plus. simpl.
  destruct rest as [|c rest]; [reflexivity|]. now intros ->.
Qed.

Lemma search_in_digit_free (r : regex) (text rest : str) :
  (forall pos t,
      match t with [] => True | c :: _ => isdecimal c = false end ->
      match_here r text pos t = None) ->
  digit_free rest ->
  forall pos, search_in r text pos rest = None.
Proof.
  intros Hr Hfree. induction Hfree as [|c rest Hc Hfree IH]; intros pos; simpl.
  - now rewrite Hr.
  - rewrite Hr by exact Hc. apply IH.
Qed.

Lemma finditer_digit_free (r : regex) (text : str) :
  (forall pos t,
      match t with [] => True | c :: _ => isdecimal c = false end ->
      match_here r text pos t = None) ->
  digit_free text -> finditer r text = [].
Proof.
  intros Hr Hfree. unfold finditer. simpl. unfold search. simpl.
  now rewrite search_in_digit_free.
Qed.

(* ================================================================== *)
(** ** Rounding and comparison of floats *)

Lemma round_half_even_spec (num den : Z) :
  0 < den ->
  2 * Z.abs (num - round_half_even num den * den) <= den
  /\ (2 * Z.abs (num - round_half_even num den * den) = den ->
      Z.even (round_half_even num den) = true).
Proof.
  intros Hden. unfold round_half_even.
  pose proof (Z.div_mod num den ltac:(lia)) as Hdm.
  pose proof (Z.mod_pos_bound num den Hden) as Hr.
  set (m := num / den) in *. set (r := num mod den) in *.
  destruct (Z.compare_spec (2 * r) den) as [Heq|Hlt|Hgt].
  - destruct (Z.even m) eqn:Hev.
    + split; [lia | auto].
    + split; [lia|]. intros _.
      replace (m + 1) with (Z.succ m) by lia.
      rewrite Z.even_succ, <- Z.negb_even, Hev. reflexivity.
  - split; lia.
  - split; lia.
Qed.

Lemma py_round_nearest (m e : Z) :
  exists n,
    py_round (Fin m e) = Ok n
    /\ is_nearest (Fin m e) n
    /\ (is_tie (Fin m e) n -> Z.even n = true).
Proof.
  unfold py_round, is_nearest, is_tie.
  destruct (Z.leb_spec 0 e) as [He|He].
  - exists (m * 2 ^ e). repeat split. lia.
  - exists (round_half_even m (2 ^ (- e))).
    assert (Hd : 0 < 2 ^ (- e)) by (apply Z.pow_pos_nonneg; lia).
    destruct (round_half_even_spec m Hd) as [H1 H2].
    repeat split; [exact H1 | now intros [_ H]; apply H2].
Qed.

(** Comparisons of one float with integers are comparisons of one integer
    with multiples of a positive scale. *)
Lemma compare_Z_scaled (m e : Z) :
  exists v d, 0 < d /\ forall n, compare_Z (Fin m e) n = (v ?= n * d).
Proof.
  unfold compare_Z. destruct (Z.leb_spec 0 e) as [He|He].
  - exists (m * 2 ^ e), 1. split; [lia|]. intros n. now rewrite Z.mul_1_r.
  - exists m, (2 ^ (- e)). split; [apply Z.pow_pos_nonneg; lia | reflexivity].
Qed.

(** A value strictly between 1.5 and 2.5 rounds to 2. *)
Lemma round_half_even_2 (m d : Z) :
  0 < d -> 3 * d < 2 * m < 5 * d -> round_half_even m d = 2.
Proof.
  intros Hd Hm. unfold round_half_even.
  pose proof (Z.div_mod m d ltac:(lia)) as Hdm.
  pose proof (Z.mod_pos_bound m d Hd) as Hr.
  assert (Hq : m / d = 1 \/ m / d = 2) by nia.
  destruct Hq as [Hq|Hq]; rewrite Hq in *.
  - destruct (Z.compare_spec (2 * (m mod d)) d); [lia | lia | reflexivity].
  - destruct (Z.compare_spec (2 * (m mod d)) d); [lia | reflexivity | lia].
Qed.

(** A quotient between 1.8995 and 2.1005 is rounded to a float that
    [round] takes to 2. *)
Lemma of_ratio_round_2 (p q : Z) :
  0 < p -> 0 < q -> 3799 * q <= 2000 * p <= 4201 * q ->
  exists m e, of_ratio p q = Fin m e /\ py_round (Fin m e) = Ok 2.
Proof.
  intros Hp Hq Hpq.
  assert (Hl : Z.log2 p - Z.log2 q <= 2).
  { pose proof (Z.log2_le_mono p (q * 2 ^ 2) ltac:(lia)) as H.
    rewrite Z.log2_mul_pow2 in H by lia. lia. }
  unfold of_ratio.
  destruct (Z.eqb_spec p 0) as [|_]; [lia|].
  set (lg := if ge_pow2 p q (Z.log2 p - Z.log2 q)
             then Z.log2 p - Z.log2 q else Z.log2 p - Z.log2 q - 1).
  assert (Hlg : lg <= 2) by (unfold lg; destruct (ge_pow2 _ _ _); lia).
  set (e := Z.max (lg - 52) (-1074)).
  assert (He : -1074 <= e <= -50) by (unfold e; lia).
  destruct (Z.leb_spec 0 e) as [|_]; [lia|].
  assert (HD : 2 ^ 50 <= 2 ^ (- e)) by (apply Z.pow_le_mono_r; lia).
  change (2 ^ 50) with 1125899906842624 in HD.
  destruct (@round_half_even_spec (p * 2 ^ (- e)) q Hq) as [Hnear _].
  set (m := round_half_even (p * 2 ^ (- e)) q) in *.
  assert (Hm : 3 * 2 ^ (- e) < 2 * m < 5 * 2 ^ (- e)).
  { set (D := 2 ^ (- e)) in *. nia. }
  destruct (Z.eqb_spec m (2 ^ 53)) as [Hm53|Hm53].
  - destruct (Z.ltb_spec 971 (e + 1)) as [|_]; [lia|].
    exists (2 ^ 52), (e + 1). split; [reflexivity|].
    unfold py_round. destruct (Z.leb_spec 0 (e + 1)) as [|_]; [lia|].
    f_equal. apply round_half_even_2; [apply Z.pow_pos_nonneg; lia|].
    replace (- e) with (Z.succ (- (e + 1))) in Hm by lia.
    rewrite Z.pow_succ_r in Hm by lia.
    rewrite Hm53 in Hm. change (2 ^ 53) with (2 * 2 ^ 52) in Hm. lia.
  - destruct (Z.ltb_spec 971 e) as [|_]; [lia|].
    exists m, e. split; [reflexivity|].
    unfold py_round. destruct (Z.leb_spec 0 e) as [|_]; [lia|].
    f_equal. apply round_half_even_2; [apply Z.pow_pos_nonneg; lia | exact Hm].
Qed.

(** So is the quotient by 1000 of a float between 1899.5 and 2100.5. *)
Lemma truediv_1000_round_2 (m e : Z) :
  0 < m ->
  (0 <= e -> 3799 <= 2 * (m * 2 ^ e) <= 4201) ->
  (e < 0 -> 3799 * 2 ^ (- e) <= 2 * m <= 4201 * 2 ^ (- e)) ->
  exists q, truediv_int (Fin m e) 1000 = Ok q /\ py_round q = Ok 2.
Proof.
  intros Hm Hpos Hneg. unfold truediv_int.
  change (1000 <=? 0) with false.
  change (of_Z 1000) with (Ok (Fin 8796093022208000 (-43))).
  cbn [bind].
  destruct (@of_ratio_round_2 (m * 2 ^ (e - Z.min e (-43)))
              (8796093022208000 * 2 ^ (-43 - Z.min e (-43))))
    as (m' & e' & -> & Hr); [| | |eauto].
  - apply Z.mul_pos_pos; [lia | apply Z.pow_pos_nonneg; lia].
  - apply Z.mul_pos_pos; [lia | apply Z.pow_pos_nonneg; lia].
  - destruct (Z.le_gt_cases (-43) e) as [Hge|Hlt].
    + rewrite Z.min_r by lia.
      replace (-43 - -43) with 0 by lia. rewrite Z.pow_0_r.
      destruct (Z.le_gt_cases 0 e) as [He|He].
      * replace (e - -43) with (e + 43) by lia.
        rewrite Z.pow_add_r by lia.
        change (2 ^ 43) with 8796093022208.
        specialize (Hpos He). nia.
      * specialize (Hneg He).
        assert (Hk : 0 < 2 ^ (e - -43)) by (apply Z.pow_pos_nonneg; lia).
        assert (Hprod : 2 ^ (e - -43) * 2 ^ (- e) = 8796093022208).
        { rewrite <- Z.pow_add_r by lia.
          replace (e - -43 + - e) with 43 by lia. reflexivity. }
        set (k := 2 ^ (e - -43)) in *. set (d := 2 ^ (- e)) in *. nia.
    + rewrite Z.min_l by lia. replace (e - e) with 0 by lia.
      rewrite Z.pow_0_r.
      assert (Hk : 0 < 2 ^ (-43 - e)) by (apply Z.pow_pos_nonneg; lia).
      assert (Hprod : 8796093022208 * 2 ^ (-43 - e) = 2 ^ (- e)).
      { change 8796093022208 with (2 ^ 43). rewrite <- Z.pow_add_r by lia.
        f_equal. lia. }
      specialize (Hneg ltac:(lia)).
      set (k := 2 ^ (-43 - e)) in *. set (d := 2 ^ (- e)) in *. nia.
Qed.

(** A value that rounds into [1900, 2100] is simplified to 2000. *)
Lemma round_to_significant_year (N : float) (n : Z) :
  py_round N = Ok n -> 1900 <= n <= 2100 ->
  round_to_significant N = Ok 2000.
Proof.
  intros Hn Hrange. destruct N as [m e|]; [|discriminate].
  assert (Hcmp : compare_Z (Fin m e) 100 = Gt
                 /\ compare_Z (Fin m e) 100000 = Lt
                 /\ compare_Z (Fin m e) 1000 = Gt
                 /\ 0 < m
                 /\ (0 <= e -> 3799 <= 2 * (m * 2 ^ e) <= 4201)
                 /\ (e < 0 -> 3799 * 2 ^ (- e) <= 2 * m <= 4201 * 2 ^ (- e))).
  { unfold py_round, compare_Z in *.
    destruct (Z.leb_spec 0 e) as [He|He].
    - injection Hn as <-.
      assert (0 < 2 ^ e) by (apply Z.pow_pos_nonneg; lia).
      repeat split; try (apply Z.compare_gt_iff; lia);
        try (apply Z.compare_lt_iff; lia); try nia; lia.
    - injection Hn as <-.
      assert (Hd : 0 < 2 ^ (- e)) by (apply Z.pow_pos_nonneg; lia).
      destruct (@round_half_even_spec m (2 ^ (- e)) Hd) as [Hnear _].
      set (d := 2 ^ (- e)) in *. set (n := round_half_even m d) in *.
      repeat split; try (apply Z.compare_gt_iff; nia);
        try (apply Z.compare_lt_iff; nia); try nia; lia. }
  destruct Hcmp as (H100 & H100000 & H1000 & Hm & Hpos & Hneg).
  destruct (@truediv_1000_round_2 m e Hm Hpos Hneg) as (q & Hq & Hr).
  unfold round_to_significant, ltb_Z, geb_Z.
  rewrite H100, H100000, H1000, Hq. cbn [bind]. rewrite Hr. reflexivity.
Qed.

Ltac order_of_compare :=
  repeat match goal with
         | H : context [(?a ?= ?b) = Lt] |- _ =>
             progress change ((a ?= b) = Lt) with (a < b) in H
         | H : context [(?a ?= ?b) = Gt] |- _ =>
             progress change ((a ?= b) = Gt) with (a > b) in H
         | H : context [(?a ?= ?b) = Eq] |- _ =>
             rewrite (Z.compare_eq_iff a b) in H
         end.

Ltac split_compare :=
  repeat match goal with
         | |- context [match ?a ?= ?b with _ => _ end] =>
             destruct (Z.compare_spec a b); try lia
         end.

(* ================================================================== *)
(** ** Percentages *)

(** C4.  The replacement of a percentage match whose numeral has the value
    [N]: "jeder Vierte" for 25, "die Hälfte" for 50, "drei von vier" for 75,
    "fast alle" from 90 on, "mehr als die Hälfte" above 50 and below 90
    except for 75, "wenige" up to 15, and in every other case "etwa n
    Prozent" where n is [N] rounded to a nearest integer. *)
Theorem C4_percentage_mapping (m : match_obj) (N : float) :
  py_float (replace (group m 1) comma [dot]) = Ok N ->
  (feq N 25 -> simplify_percentage m = Ok (lit "jeder Vierte"))
  /\ (feq N 50 ->
      simplify_percentage m = Ok (lit "die H" ++ [a_uml] ++ lit "lfte"))
  /\ (feq N 75 -> simplify_percentage m = Ok (lit "drei von vier"))
  /\ (fge N 90 -> simplify_percentage m = Ok (lit "fast alle"))
  /\ (fgt N 50 -> flt N 90 -> ~ feq N 75 ->
      simplify_percentage m
      = Ok (lit "mehr als die H" ++ [a_uml] ++ lit "lfte"))
  /\ (fle N 15 -> simplify_percentage m = Ok (lit "wenige"))
  /\ (~ feq N 25 -> ~ feq N 50 -> ~ feq N 75 -> ~ fge N 90 ->
      ~ (fgt N 50 /\ flt N 90 /\ ~ feq N 75) -> ~ fle N 15 ->
      exists n,
        py_round N = Ok n /\ is_nearest N n
        /\ simplify_percentage m
           = Ok (lit "etwa " ++ str_of_Z n ++ lit " Prozent")).
Proof.
  intros HN. unfold simplify_percentage. rewrite HN. cbn [bind].
  unfold feq, flt, fgt, fle, fge, eqb_Z, geb_Z, gtb_Z, leb_Z.
  destruct N as [mN eN|].
  - destruct (py_round_nearest mN eN) as (n & Hn & Hnear & _).
    rewrite Hn. cbn [bind].
    destruct (compare_Z_scaled mN eN) as (v & d & Hd & Hc).
    rewrite !Hc.
    repeat split; intros; order_of_compare; try (split_compare; reflexivity).
    exists n. repeat split; [exact Hnear|].
    split_compare; try reflexivity.
    all: exfalso; order_of_compare; lia.
  - simpl. repeat split; intros; try discriminate; try reflexivity;
      try congruence.
    exfalso. intuition discriminate.
Qed.

Lemma C4_percentage_mapping_witness :
  finditer percent_pattern (lit "25 Prozent") = [match_25_Prozent]
  /\ simplify_percentage match_25_Prozent = Ok (lit "jeder Vierte").
Proof.
  split; [vm_compute; reflexivity|].
  refine (proj1 (@C4_percentage_mapping match_25_Prozent
                   (Fin 7036874417766400 (-48)) _) _);
    vm_compute; reflexivity.
Defined.

(* ================================================================== *)
(** ** Rounding *)

(** C5.  The four documented values of [round_to_significant]. *)
Theorem C5_round_to_significant_examples :
  (x <- of_Z 324620 ;; round_to_significant x) = Ok 325000
  /\ (x <- of_Z 1897 ;; round_to_significant x) = Ok 2000
  /\ (x <- of_Z 150 ;; round_to_significant x) = Ok 200
  /\ (x <- of_Z 42 ;; round_to_significant x) = Ok 42.
Proof. repeat split; vm_compute; reflexivity. Qed.

Lemma two_and_a_half_parsed :
  convert_german_number (lit "2,5") = Ok two_and_a_half.
Proof. vm_compute. reflexivity. Qed.




(* ================================================================== *)
(** ** Runs of the whole function *)

(** C7.  The documented run on the donation sentence. *)
Theorem C7_euro_sentence :
  simplify_numbers (lit "324.620,22 Euro wurden gespendet.")
  = Ok (lit "etwa 325.000 Euro wurden gespendet.").
Proof. vm_compute. reflexivity. Qed.

(** C1 fails on the code: a four-digit number that begins with 19 or 20 and
    has no word before it makes [is_year] take the last element of an empty
    list, and the [IndexError] leaves [simplify_numbers]. *)
Theorem C1_year_without_word_before_raises :
  simplify_numbers (lit "2024") = Raise IndexError.
Proof. vm_compute. reflexivity. Qed.

(** A numeral too large for a float is read as [inf], whose rounding raises
    [OverflowError]; only [ValueError] is caught. *)
Lemma huge_number_raises :
  simplify_numbers (repeat (chr "9") 400) = Raise OverflowError.
Proof. vm_compute. reflexivity. Qed.

(** C3 fails on the code: after "Jahre " the number 5678 is simplified as a
    quantity and its rounded value is written with a grouping dot. *)
Theorem C3_after_Jahre_grouped :
  let text := lit "im Jahre 5678" in
  after_Jahr text 9 = true
  /\ looks_like_year text 9 5678 = false
  /\ simplify_numbers text = Ok (lit "im Jahre etwa 6.000").
Proof. repeat split; vm_compute; reflexivity. Qed.

(* ================================================================== *)
(** ** Years *)

Lemma finditer_ngroups (r : regex) (text : str) (m : match_obj) :
  In m (finditer r text) -> m_string m = text /\ m_ngroups m = ngroups r.
Proof.
  intros Hin. unfold finditer in Hin.
  destruct (finditer_from_spans r text (S (length text)) 0) as [_ Hall].
  rewrite Forall_forall in Hall. now apply Hall.
Qed.

(** C2, as stated, fails: a number in [1900, 2100] that does not follow
    "Jahr " or "Jahre " is not passed through on that ground.  In "x 2018"
    the token 2018 is rewritten to "etwa 2000". *)
Lemma C2_year_value_counterexample :
  ~ (forall (text : str) (m : match_obj) (N : float),
        In m (finditer pattern text) ->
        convert_german_number (group m 1) = Ok N ->
        fge N 1900 -> fle N 2100 ->
        after_Jahr text (m_start m) = false ->
        rewrite_match text m = Ok (group m 0)).
Proof.
  intros H.
  specialize (H (lit "x 2018") (first_match (lit "x 2018"))
                (Fin 8875257859407872 (-42))).
  assert (Hrun : rewrite_match (lit "x 2018") (first_match (lit "x 2018"))
                 = Ok (lit "etwa 2000")) by (vm_compute; reflexivity).
  rewrite Hrun in H.
  assert (Hfalse : Ok (lit "etwa 2000")
                   = Ok (group (first_match (lit "x 2018")) 0)).
  { apply H; vm_compute; solve [auto | discriminate]. }
  vm_compute in Hfalse. discriminate.
Qed.

(** C2, amended.  A numeral token whose value rounds into [1900, 2100] is
    passed through only when [is_part_of_date] or [is_year] says so.
    Otherwise it is simplified like any quantity, and what its value
    changes is the format: the is-count flag is false whatever precedes the
    token, so the rounded value, which is 2000, is written without a
    grouping separator. *)
Theorem C2_year_value_only_ungroups
        (text : str) (m : match_obj) (N : float) (n : Z) :
  In m (finditer pattern text) ->
  convert_german_number (group m 1) = Ok N ->
  py_round N = Ok n ->
  1900 <= n <= 2100 ->
  is_part_of_date text (m_start m) = false ->
  is_year text (m_start m) = Ok false ->
  rewrite_match text m = Ok (lit "etwa 2000" ++ suffix_text m).
Proof.
  intros Hin Hconv Hn Hrange Hdate Hyear.
  apply finditer_ngroups in Hin. destruct Hin as [_ Hgroups].
  unfold rewrite_match. rewrite Hdate, Hyear. cbn [bind negb].
  unfold simplify_regular_number.
  rewrite Hconv. cbn [bind].
  rewrite (@round_to_significant_year N n Hn Hrange). cbn [bind].
  rewrite Hn. cbn [bind]. rewrite Hgroups.
  change (Nat.ltb 1 (ngroups pattern)) with true. cbv iota.
  rewrite looks_like_year_range.
  replace ((1900 <=? n) && (n <=? 2100)) with true
    by (symmetry; apply andb_true_iff; split; apply Z.leb_le; lia).
  unfold try_except, format_german_number, suffix_text.
  destruct (group m 2); reflexivity.
Qed.

Lemma C2_year_value_only_ungroups_witness :
  rewrite_match (lit "x 2018") (first_match (lit "x 2018"))
  = Ok (lit "etwa 2000" ++ suffix_text (first_match (lit "x 2018"))).
Proof.
  apply (@C2_year_value_only_ungroups
           (lit "x 2018") (first_match (lit "x 2018"))
           (Fin 8875257859407872 (-42)) 2018);
    try (vm_compute; reflexivity).
  - left. vm_compute. reflexivity.
  - lia.
Defined.

(* ================================================================== *)
(** ** Days of the month *)

Lemma firstn_two (text : str) (a b : char) :
  forall i,
    nth_error text i = Some a -> nth_error text (S i) = Some b ->
    firstn 2 (skipn i text) = [a; b].
Proof.
  induction text as [|c text IH]; intros i Ha Hb.
  - destruct i; discriminate.
  - destruct i as [|i].
    + simpl in Ha, Hb. injection Ha as ->.
      destruct text as [|c' text]; [discriminate|].
      simpl in Hb. injection Hb as ->. reflexivity.
    + simpl in Ha. change (nth_error text (S i) = Some b) in Hb.
      simpl. now apply IH.
Qed.

Lemma star_loop_S (A : Type) step fuel pos rest caps (k : cont A) :
  star_loop step (S fuel) pos rest caps k
  = match step pos rest caps
            (fun pos' rest' caps' =>
               if Nat.eqb pos' pos then None
               else star_loop step fuel pos' rest' caps' k) with
    | Some x => Some x
    | None => k pos rest caps
    end.
Proof. reflexivity. Qed.

Lemma run_class (A : Type) p pos c rest caps (k : cont A) :
  run (Class p) pos (c :: rest) caps k
  = if p c then k (S pos) rest caps else None.
Proof. reflexivity. Qed.

(** [\d*] reads a whole run of digits when no digit follows the run and
    what follows matches. *)
Lemma star_digits (A : Type) (k : cont A) (x : A) (tail : str) (caps : captures) :
  match tail with [] => True | t :: _ => isdecimal t = false end ->
  forall ds pos fuel,
    Forall (fun c => isdecimal c = true) ds ->
    (length ds <= fuel)%nat ->
    k (pos + length ds)%nat tail caps = Some x ->
    star_loop (run (Class isdecimal)) fuel pos (ds ++ tail) caps k = Some x.
Proof.
  intros Htail.
  induction ds as [|c ds IH]; intros pos fuel Hds Hfuel Hk.
  - simpl in Hk. rewrite Nat.add_0_r in Hk. rewrite app_nil_l.
    destruct fuel as [|fuel]; [exact Hk|].
    rewrite star_loop_S.
    destruct tail as [|t tail]; [exact Hk|].
    rewrite run_class, Htail. exact Hk.
  - apply Forall_cons_iff in Hds. destruct Hds as [Hc Hds].
    destruct fuel as [|fuel]; [simpl in Hfuel; lia|].
    rewrite <- app_comm_cons, star_loop_S, run_class, Hc.
    replace (Nat.eqb (S pos) pos) with false
      by (symmetry; apply Nat.eqb_neq; lia).
    rewrite (IH (S pos) fuel Hds); [reflexivity | simpl in Hfuel; lia |].
    simpl in Hk. now rewrite Nat.add_succ_r in Hk.
Qed.

Lemma day_pattern_matches (s : str) :
  starts_with_day s -> exists m, re_match day_pattern s = Some m.
Proof.
  intros (ds & tail & -> & Hne & Hds).
  destruct ds as [|c ds]; [congruence|].
  apply Forall_cons_iff in Hds. destruct Hds as [Hc Hds].
  unfold re_match, match_here, day_pattern, Plus.
  cbn [run app]. rewrite Hc.
  eexists.
  apply (@star_digits _ _ _ (dot :: tail) [] eq_refl ds 1%nat);
    [exact Hds | | ].
  - rewrite length_app. simpl. lia.
  - cbn [run]. rewrite N.eqb_refl. reflexivity.
Qed.

(** C9, as stated, fails.  After a word and one blank, "1.500" is rewritten:
    [is_part_of_date] looks at the two characters before the token.  The
    same happens after one blank at the start of the text, where the slice
    [text[-1:1]] is empty. *)
Lemma C9_day_rule_counterexample :
  ~ day_rule_as_stated (lit "x 1.500") /\ ~ day_rule_as_stated (lit " 1.500").
Proof.
  split; intros H.
  - specialize (H (first_match (lit "x 1.500"))).
    assert (Hrun : rewrite_match (lit "x 1.500") (first_match (lit "x 1.500"))
                   = Ok (lit "etwa 2.000")) by (vm_compute; reflexivity).
    rewrite Hrun in H.
    assert (Hfalse : Ok (lit "etwa 2.000")
                     = Ok (group (first_match (lit "x 1.500")) 0)).
    { apply H.
      - left. vm_compute. reflexivity.
      - vm_compute. lia.
      - exists (chr " "). split; vm_compute; reflexivity.
      - exists (lit "1"), (lit "50"). repeat split.
        + discriminate.
        + repeat constructor. }
    vm_compute in Hfalse. discriminate.
  - specialize (H (first_match (lit " 1.500"))).
    assert (Hrun : rewrite_match (lit " 1.500") (first_match (lit " 1.500"))
                   = Ok (lit "etwa 2.000")) by (vm_compute; reflexivity).
    rewrite Hrun in H.
    assert (Hfalse : Ok (lit "etwa 2.000")
                     = Ok (group (first_match (lit " 1.500")) 0)).
    { apply H.
      - left. vm_compute. reflexivity.
      - vm_compute. lia.
      - exists (chr " "). split; vm_compute; reflexivity.
      - exists (lit "1"), (lit "50"). repeat split.
        + discriminate.
        + repeat constructor. }
    vm_compute in Hfalse. discriminate.
Qed.

(** C9, amended.  A numeral token that starts at offset 2 or later, has two
    whitespace characters just before it, and whose next four characters
    begin with digits and a dot, is emitted as it stands. *)
Theorem C9_two_blanks_then_day (text : str) (m : match_obj) :
  (2 <= m_start m)%nat ->
  is_space_at text (m_start m - 2) ->
  is_space_at text (m_start m - 1) ->
  starts_with_day
    (slice text (Z.of_nat (m_start m)) (Z.of_nat (m_start m) + 4)) ->
  rewrite_match text m = Ok (group m 0).
Proof.
  intros Hpos (a & Ha & Hsa) (b & Hb & Hsb) Hday.
  assert (Hdate : is_part_of_date text (m_start m) = true).
  { unfold is_part_of_date, char_at in *.
    destruct (day_pattern_matches Hday) as (d & ->).
    assert (Hlen : (m_start m - 1 < length text)%nat)
      by (apply nth_error_Some; congruence).
    replace (Z.of_nat (m_start m) - 2) with (Z.of_nat (m_start m - 2)) by lia.
    rewrite slice_nat by lia.
    replace (m_start m - (m_start m - 2))%nat with 2%nat by lia.
    replace (m_start m - 1)%nat with (S (m_start m - 2)) in Hb by lia.
    rewrite (@firstn_two text a b _ Ha Hb). simpl. rewrite Hsa, Hsb.
    destruct (Z.ltb_spec 0 (Z.of_nat (m_start m))); [reflexivity | lia]. }
  unfold rewrite_match. rewrite Hdate. reflexivity.
Qed.

Lemma C9_two_blanks_then_day_witness :
  rewrite_match (lit "  1.500") (first_match (lit "  1.500"))
  = Ok (group (first_match (lit "  1.500")) 0).
Proof.
  apply C9_two_blanks_then_day.
  - vm_compute. lia.
  - exists (chr " "). split; vm_compute; reflexivity.
  - exists (chr " "). split; vm_compute; reflexivity.
  - exists (lit "1"), (lit "50"). repeat split.
    + discriminate.
    + repeat constructor.
Defined.

(* ================================================================== *)
(** ** Text without digits *)

(** C10, as stated, fails: [\d] matches every Unicode decimal digit, and
    [float] reads them.  The text made of the Arabic-Indic digit three
    (U+0663) has no ASCII digit and becomes "etwa 3". *)
Lemma C10_no_ascii_digit_counterexample :
  ~ (forall raw_text : str,
        Forall (fun c => is_ascii_digit c = false) raw_text ->
        simplify_numbers raw_text = Ok raw_text).
Proof.
  intros H. specialize (H [1635%N]).
  assert (Hrun : simplify_numbers [1635%N] = Ok (lit "etwa 3"))
    by (vm_compute; reflexivity).
  rewrite Hrun in H.
  assert (Hfalse : Ok (lit "etwa 3") = Ok [1635%N])
    by (apply H; repeat constructor).
  vm_compute in Hfalse. discriminate.
Qed.

(** C10, amended.  A text without any Unicode decimal digit, that is
    without any character that [\d] matches, is returned unchanged. *)
Theorem C10_digit_free_unchanged (raw_text : str) :
  digit_free raw_text -> simplify_numbers raw_text = Ok raw_text.
Proof.
  intros Hfree. unfold simplify_numbers, sub, quantity_pass.
  rewrite (@finditer_digit_free percent_pattern raw_text)
    by (auto using percent_pattern_needs_digit).
  cbn [sub_from bind]. rewrite slice_from_0.
  rewrite (@finditer_digit_free pattern raw_text)
    by (auto using pattern_needs_digit).
  cbn [number_loop]. change (Z.of_nat 0) with 0.
  now rewrite slice_from_0.
Qed.

Lemma C10_digit_free_unchanged_witness :
  simplify_numbers (lit "jeder Vierte") = Ok (lit "jeder Vierte").
Proof.
  apply C10_digit_free_unchanged. repeat constructor.
Defined.

(* ================================================================== *)
(** ** The output covers the text once *)

(** C8.  When the second step returns, its output is the text in which
    each match of [pattern] is replaced by what [rewrite_match] gives for
    it: the matches lie in the text from left to right without overlap,
    the text is its gaps and its matches in that order, and the output is
    the same gaps with the replacements in the places of the matches. *)
Theorem C8_quantity_pass_assembles (text out : str) :
  quantity_pass text = Ok out ->
  let ms := finditer pattern text in
  spans_ok (length text) 0 ms
  /\ text = assemble text 0 (combine ms (map (fun m => group m 0) ms))
  /\ exists reps,
      Forall2 (fun m s => rewrite_match text m = Ok s) ms reps
      /\ out = assemble text 0 (combine ms reps).
Proof.
  intros Hrun ms.
  destruct (finditer_from_spans pattern text (S (length text)) 0)
    as [Hspans Hall].
  fold (finditer pattern text) in Hspans, Hall. fold ms in Hspans, Hall.
  split; [exact Hspans|]. split.
  - rewrite <- assemble_matches; [reflexivity | lia | exact Hspans |].
    eapply Forall_impl; [|exact Hall]. now intros m [Hm _].
  - unfold quantity_pass in Hrun. fold ms in Hrun.
    apply number_loop_assemble in Hrun. exact Hrun.
Qed.

Lemma C8_quantity_pass_assembles_witness :
  let text := lit "Am 1. Januar 2024 waren es 5.678 Teilnehmer." in
  let out := lit "Am 1. Januar 2024 waren es etwa 6.000 Teilnehmer." in
  let ms := finditer pattern text in
  spans_ok (length text) 0 ms
  /\ text = assemble text 0 (combine ms (map (fun m => group m 0) ms))
  /\ exists reps,
      Forall2 (fun m s => rewrite_match text m = Ok s) ms reps
      /\ out = assemble text 0 (combine ms reps).
Proof.
  intros text out.
  apply (@C8_quantity_pass_assembles text out).
  vm_compute. reflexivity.
Defined.

(* ================================================================== *)
(** ** Decimal strings and grouping *)


Lemma uint_digits (d : Decimal.uint) :
  Forall ascii_digit (lit (NilEmpty.string_of_uint d)).
Proof.
  induction d; simpl; constructor; try assumption; unfold ascii_digit;
    cbn; lia.
Qed.


Lemma uint_length (d : Decimal.uint) :
  Z.of_nat (length (lit (NilEmpty.string_of_uint d)))
  = Z.of_N (DecimalPos.Unsigned.usize d).
Proof. induction d; simpl length; simpl DecimalPos.Unsigned.usize; lia. Qed.

Lemma of_lu_rev_cons (d : Decimal.uint) :
  d <> Decimal.Nil ->
  DecimalPos.Unsigned.of_lu (Decimal.rev d)
  = (DecimalPos.Unsigned.of_lu (Decimal.rev (DecimalPos.Unsigned.tl d))
     + DecimalPos.Unsigned.hd d * 10 ^ DecimalPos.Unsigned.usize (DecimalPos.Unsigned.tl d))%N.
Proof.
  destruct d; intros Hd; [congruence | ..];
    cbn [DecimalPos.Unsigned.tl DecimalPos.Unsigned.hd]; unfold Decimal.rev at 1;
    cbn [Decimal.revapp];
    rewrite DecimalPos.Unsigned.of_lu_revapp; cbn [DecimalPos.Unsigned.of_lu]; lia.
Qed.

Lemma uint_value_of_lu (d : Decimal.uint) :
  forall acc,
    uint_value d acc
    = acc * 10 ^ Z.of_N (DecimalPos.Unsigned.usize d)
      + Z.of_N (DecimalPos.Unsigned.of_lu (Decimal.rev d)).
Proof.
  induction d; intros acc;
    [cbn; lia | ..];
    cbn [uint_value]; rewrite IHd;
    rewrite (@of_lu_rev_cons (_ d)) by discriminate;
    cbn [DecimalPos.Unsigned.tl DecimalPos.Unsigned.hd DecimalPos.Unsigned.usize];
    rewrite N2Z.inj_succ, Z.pow_succ_r by lia;
    rewrite N2Z.inj_add, N2Z.inj_mul, N2Z.inj_pow;
    change (Z.of_N 10) with 10; lia.
Qed.

Lemma uint_value_bounds (d : Decimal.uint) :
  forall acc,
    0 <= acc ->
    acc * 10 ^ Z.of_N (DecimalPos.Unsigned.usize d) <= uint_value d acc
    /\ uint_value d acc
       < (acc + 1) * 10 ^ Z.of_N (DecimalPos.Unsigned.usize d).
Proof.
  induction d; intros acc Hacc;
    cbn [uint_value DecimalPos.Unsigned.usize];
    [rewrite Z.pow_0_r; lia | ..];
    rewrite N2Z.inj_succ, Z.pow_succ_r by lia;
    match goal with
    | |- context [uint_value d ?a] => destruct (IHd a ltac:(lia)) as [Hlo Hhi]
    end;
    assert (Hp : 0 < 10 ^ Z.of_N (DecimalPos.Unsigned.usize d))
      by (apply Z.pow_pos_nonneg; lia);
    split; nia.
Qed.

Lemma str_of_Z_pos (p : positive) :
  str_of_Z (Z.pos p) = lit (NilEmpty.string_of_uint (Pos.to_uint p)).
Proof.
  unfold str_of_Z. cbn [Z.to_int NilZero.string_of_int].
  unfold NilZero.string_of_uint.
  pose proof (DecimalPos.Unsigned.to_uint_nonnil p) as Hnil.
  destruct (Pos.to_uint p); [congruence | reflexivity ..].
Qed.

Lemma uint_value_to_uint (p : positive) :
  uint_value (Pos.to_uint p) 0 = Z.pos p.
Proof.
  rewrite uint_value_of_lu, <- DecimalPos.Unsigned.of_uint_alt, DecimalPos.Unsigned.of_to.
  reflexivity.
Qed.

Lemma str_of_Z_digits (n : Z) :
  0 <= n -> Forall ascii_digit (str_of_Z n) /\ str_of_Z n <> [].
Proof.
  intros Hn. destruct n as [|p|p]; [| |lia].
  - change (str_of_Z 0) with [48%N].
    split; [constructor; [unfold ascii_digit; lia | constructor] | discriminate].
  - rewrite str_of_Z_pos. split; [apply uint_digits|].
    pose proof (DecimalPos.Unsigned.to_uint_nonnil p) as Hnil.
    destruct (Pos.to_uint p); [congruence | discriminate ..].
Qed.


Lemma to_uint_leading (p : positive) :
  match Pos.to_uint p with
  | Decimal.Nil | Decimal.D0 _ => False
  | _ => True
  end.
Proof.
  pose proof (DecimalPos.Unsigned.to_of (Pos.to_uint p)) as Hnorm.
  rewrite DecimalPos.Unsigned.of_to in Hnorm. cbn [N.to_uint] in Hnorm.
  pose proof (DecimalPos.Unsigned.to_uint_nonzero p) as Hnz.
  pose proof (DecimalPos.Unsigned.to_uint_nonnil p) as Hnil.
  destruct (Pos.to_uint p) as [|d| | | | | | | | |] eqn:E; try exact I.
  - congruence.
  - unfold Decimal.unorm in Hnorm. cbn [Decimal.nzhead] in Hnorm.
    destruct (Decimal.nzhead d) eqn:En; try discriminate.
    + now apply Hnz.
    + now apply DecimalFacts.nzhead_nonzero in En.
Qed.

Lemma str_of_Z_bounds (n : Z) :
  0 < n ->
  10 ^ (Z.of_nat (length (str_of_Z n)) - 1) <= n
  < 10 ^ Z.of_nat (length (str_of_Z n)).
Proof.
  intros Hn. destruct n as [|p|p]; try lia.
  rewrite str_of_Z_pos, uint_length.
  rewrite <- (uint_value_to_uint p).
  pose proof (to_uint_leading p) as Hlead.
  destruct (Pos.to_uint p) as [|d|d|d|d|d|d|d|d|d|d]; try contradiction;
    cbn [uint_value DecimalPos.Unsigned.usize];
    rewrite N2Z.inj_succ, Z.pow_succ_r by lia;
    replace (Z.succ (Z.of_N (DecimalPos.Unsigned.usize d)) - 1)
      with (Z.of_N (DecimalPos.Unsigned.usize d)) by lia;
    match goal with
    | |- context [uint_value d ?a] =>
        destruct (@uint_value_bounds d a ltac:(lia)) as [Hlo Hhi]
    end;
    assert (Hp : 0 < 10 ^ Z.of_N (DecimalPos.Unsigned.usize d))
      by (apply Z.pow_pos_nonneg; lia);
    split; nia.
Qed.

Lemma replace_keep (s : str) (c : char) (t : str) :
  Forall (fun x => x <> c) s -> replace s c t = s.
Proof.
  induction 1 as [|x s Hx Hs IH]; [reflexivity|].
  unfold replace in *. cbn [flat_map]. rewrite IH.
  destruct (N.eqb_spec x c); [contradiction | reflexivity].
Qed.

Lemma replace_app (s1 s2 : str) (c : char) (t : str) :
  replace (s1 ++ s2) c t = replace s1 c t ++ replace s2 c t.
Proof. unfold replace. apply flat_map_app. Qed.

Lemma replace_cons (x : char) (s : str) (c : char) (t : str) :
  replace (x :: s) c t = (if N.eqb x c then t else [x]) ++ replace s c t.
Proof. reflexivity. Qed.


Lemma filter_group3 (p : char -> bool) (ds : str) :
  p comma = false -> forall k, filter p (group3 ds k) = filter p ds.
Proof.
  intros Hp. induction ds as [|d ds IH]; intros k; [reflexivity|].
  cbn [group3]. destruct (Nat.eqb k 3); cbn [filter];
    change (chr ",") with comma; rewrite ?Hp, IH; reflexivity.
Qed.

Lemma filter_all (p : char -> bool) (s : str) :
  Forall (fun x => p x = true) s -> filter p s = s.
Proof.
  induction 1 as [|x s Hx Hs IH]; [reflexivity|].
  cbn [filter]. now rewrite Hx, IH.
Qed.

Lemma filter_with_commas (p : char -> bool) (ds : str) :
  p comma = false -> filter p (with_commas ds) = filter p ds.
Proof.
  intros Hp. unfold with_commas.
  rewrite filter_rev, filter_group3 by exact Hp.
  now rewrite filter_rev, rev_involutive.
Qed.

Lemma ascii_digit_plain (c : char) :
  ascii_digit c -> c <> comma /\ c <> dot.
Proof.
  unfold ascii_digit. intros Hc.
  change comma with 44%N. change dot with 46%N. lia.
Qed.


Lemma split_at_dot_plain (s : str) :
  Forall (fun x => x <> dot) s -> split_at_dot s = (s, None).
Proof.
  induction 1 as [|x s Hx Hs IH]; [reflexivity|].
  cbn [split_at_dot]. rewrite IH.
  destruct (N.eqb_spec x (chr ".")); [contradiction | reflexivity].
Qed.




(* ================================================================== *)
(** ** Blanks, words and the classifiers *)

Lemma lstrip_all_space (s : str) : all_space s -> lstrip s = [].
Proof.
  induction 1 as [|c s Hc Hs IH]; [reflexivity|].
  cbn [lstrip]. now rewrite Hc.
Qed.

Lemma lstrip_app_space (ws s : str) :
  all_space ws -> lstrip (ws ++ s) = lstrip s.
Proof.
  induction 1 as [|c ws Hc Hws IH]; [reflexivity|].
  cbn [app lstrip]. now rewrite Hc.
Qed.

(** [lstrip] removes a prefix made of whitespace. *)
Lemma lstrip_prefix (s : str) :
  exists ws, all_space ws /\ s = ws ++ lstrip s.
Proof.
  induction s as [|c s (ws & Hws & IH)].
  - exists []. split; [constructor | reflexivity].
  - cbn [lstrip]. destruct (isspace c) eqn:E.
    + exists (c :: ws). split; [now constructor|]. cbn [app]. now f_equal.
    + exists []. split; [constructor | reflexivity].
Qed.

Lemma lstrip_keep (c : char) (s : str) :
  isspace c = false -> lstrip (c :: s) = c :: s.
Proof. intros Hc. cbn [lstrip]. now rewrite Hc. Qed.

Lemma all_space_rev (s : str) : all_space s -> all_space (rev s).
Proof. unfold all_space. apply Forall_rev. Qed.

Lemma all_space_app (s t : str) :
  all_space (s ++ t) <-> all_space s /\ all_space t.
Proof. unfold all_space. apply Forall_app. Qed.

Lemma strip_all_space (s : str) : all_space s -> strip s = [].
Proof.
  intros Hs. unfold strip, rstrip. now rewrite (lstrip_all_space Hs).
Qed.

(** A text that is not all whitespace is stripped to a text that begins
    and ends with a character that is not whitespace. *)
Lemma strip_not_all_space (s : str) :
  ~ all_space s ->
  exists c t, lstrip (rev (strip s)) = c :: t /\ isspace c = false.
Proof.
  intros Hs. unfold strip, rstrip. rewrite rev_involutive.
  destruct (lstrip_prefix s) as (ws & Hws & Hsplit).
  pose proof (lstrip_head s) as Hhead.
  destruct (lstrip s) as [|a u] eqn:E.
  - exfalso. apply Hs. rewrite Hsplit, app_nil_r. exact Hws.
  - destruct (lstrip_prefix (rev (a :: u))) as (ws' & Hws' & Hsplit').
    pose proof (lstrip_head (rev (a :: u))) as Hhead'.
    destruct (lstrip (rev (a :: u))) as [|b v] eqn:E'.
    + exfalso. rewrite app_nil_r in Hsplit'.
      assert (Hau : all_space (a :: u)).
      { rewrite <- (rev_involutive (a :: u)), Hsplit'.
        now apply all_space_rev. }
      apply Forall_cons_iff in Hau. destruct Hau as [Ha _]. congruence.
    + rewrite lstrip_keep by exact Hhead'. eauto.
Qed.

Lemma split_run_nil (s : str) :
  forall cur, split_run s cur = [] <-> cur = [] /\ all_space s.
Proof.
  induction s as [|c s IH]; intros cur; cbn [split_run].
  - destruct cur; split; try discriminate; try tauto.
    + intros _. split; [reflexivity | constructor].
    + intros [H _]. discriminate.
  - destruct (isspace c) eqn:E.
    + destruct cur as [|x cur].
      * rewrite IH. split; intros [H1 H2]; split; auto.
        -- now constructor.
        -- now apply Forall_cons_iff in H2.
      * split; [discriminate | intros [H _]; discriminate].
    + rewrite IH. split; [intros [H _]; discriminate|].
      intros [_ H]. apply Forall_cons_iff in H. destruct H as [H _].
      congruence.
Qed.

Lemma split_nil (s : str) : split s = [] <-> all_space s.
Proof. unfold split. rewrite split_run_nil. tauto. Qed.

Lemma split_strip_nil (s : str) : split (strip s) = [] <-> all_space s.
Proof.
  rewrite split_nil. split.
  - intros Hstrip.
    destruct (Forall_dec (fun c => isspace c = true)
                (fun c => bool_dec (isspace c) true) s) as [Hs|Hs];
      [exact Hs|].
    destruct (strip_not_all_space Hs) as (c & t & Hl & Hc).
    apply all_space_rev in Hstrip.
    rewrite (lstrip_all_space Hstrip) in Hl. discriminate.
  - intros Hs. rewrite (strip_all_space Hs). constructor.
Qed.

Lemma endswith_nil (suf : str) : suf <> [] -> endswith [] suf = false.
Proof.
  intros Hsuf. unfold endswith. cbn [rev].
  destruct (rev suf) eqn:E; [|reflexivity].
  apply (f_equal (@rev char)) in E. rewrite rev_involutive in E.
  now subst.
Qed.

(** X3.  [looks_like_year] depends on the number alone: the test for a
    preceding "Jahr " or "Jahre " is made on stripped text and never
    holds, so the result is true exactly for the numbers from 1900 to
    2100, whatever the text and the position. *)
Theorem X3_looks_like_year_value_only (text : str) (pos : nat) (n : Z) :
  looks_like_year text pos n = true <-> 1900 <= n <= 2100.
Proof.
  rewrite looks_like_year_range, andb_true_iff, !Z.leb_le. tauto.
Qed.

(** X4.  [is_year] raises nothing but [IndexError], and it raises exactly
    when only whitespace (or nothing) precedes the position and the digits
    found there are four and begin with 19 or 20. *)
Theorem X4_is_year_raises (text : str) (pos : nat) (e : exn) :
  is_year text pos = Raise e
  <-> e = IndexError
      /\ all_space (slice text 0 (Z.of_nat pos))
      /\ exists number_match,
          re_match digits_pattern (slice_from text (Z.of_nat pos))
          = Some number_match
          /\ length (group number_match 0) = 4%nat
          /\ (startswith (group number_match 0) (lit "19") = true
              \/ startswith (group number_match 0) (lit "20") = true).
Proof.
  unfold is_year.
  destruct (re_match digits_pattern (slice_from text (Z.of_nat pos)))
    as [nm|].
  - split.
    + intros H.
      destruct (endswith _ (lit "Jahr")); [discriminate|].
      destruct (Nat.eqb_spec (length (group nm 0)) 4) as [Hlen|Hlen];
        [|discriminate].
      destruct (startswith (group nm 0) (lit "19") ||
                startswith (group nm 0) (lit "20")) eqn:Hpre;
        [|discriminate].
      cbn [andb] in H.
      destruct (rev (split (strip (slice text 0 (Z.of_nat pos)))))
        as [|w ws] eqn:Hsplit; [|discriminate].
      injection H as <-. split; [reflexivity|]. split.
      * apply split_strip_nil.
        apply (f_equal (@rev str)) in Hsplit.
        now rewrite rev_involutive in Hsplit.
      * exists nm. split; [reflexivity|]. split; [exact Hlen|].
        now apply orb_true_iff.
    + intros (-> & Hspace & nm' & Hnm & Hlen & Hpre).
      injection Hnm as <-.
      rewrite (strip_all_space Hspace).
      rewrite endswith_nil by discriminate.
      rewrite Hlen. apply orb_true_iff in Hpre. rewrite Hpre.
      reflexivity.
  - split; [discriminate|].
    intros (_ & _ & nm & Hnm & _). discriminate.
Qed.

(* ================================================================== *)
(** ** Where the matches are found *)

Lemma search_in_here (r : regex) (text : str) (rest : str) :
  forall pos m,
    search_in r text pos rest = Some m ->
    match_here r text (m_start m) (skipn (m_start m - pos) rest) = Some m.
Proof.
  induction rest as [|c rest IH]; intros pos m H; cbn [search_in] in H.
  - destruct (match_here r text pos []) eqn:E; [|discriminate].
    injection H as ->. pose proof (match_here_span _ _ _ _ E) as Hs.
    destruct Hs as (_ & -> & _). now rewrite Nat.sub_diag.
  - destruct (match_here r text pos (c :: rest)) eqn:E.
    + injection H as ->. pose proof (match_here_span _ _ _ _ E) as Hs.
      destruct Hs as (_ & -> & _). now rewrite Nat.sub_diag.
    + pose proof (search_in_span _ _ _ _ H) as Hs.
      apply IH in H.
      replace (m_start m - pos)%nat with (S (m_start m - S pos)) by lia.
      exact H.
Qed.

Lemma search_here (r : regex) (text : str) (pos : nat) (m : match_obj) :
  search r text pos = Some m ->
  match_here r text (m_start m) (skipn (m_start m) text) = Some m.
Proof.
  unfold search. destruct (Nat.leb_spec pos (length text)) as [Hp|Hp];
    [|discriminate].
  intros H. pose proof (search_in_span _ _ _ _ H) as Hs.
  apply search_in_here in H. rewrite skipn_skipn in H.
  replace (m_start m - pos + pos)%nat with (m_start m) in H by lia.
  exact H.
Qed.

Lemma finditer_from_here (r : regex) (text : str) (fuel : nat) :
  forall pos m,
    In m (finditer_from fuel r text pos) ->
    match_here r text (m_start m) (skipn (m_start m) text) = Some m.
Proof.
  induction fuel as [|fuel IH]; intros pos m Hin; [destruct Hin|].
  cbn [finditer_from] in Hin.
  destruct (search r text pos) as [m0|] eqn:E; [|destruct Hin].
  destruct Hin as [<-|Hin]; [now apply search_here in E | eauto].
Qed.

(** Every match that [finditer] yields is the match of the pattern at the
    place where it starts. *)
Lemma finditer_here (r : regex) (text : str) (m : match_obj) :
  In m (finditer r text) ->
  match_here r text (m_start m) (skipn (m_start m) text) = Some m.
Proof. apply finditer_from_here. Qed.

Lemma spans_ok_each (len : nat) (ms : list match_obj) :
  forall last m,
    spans_ok len last ms -> In m ms ->
    (last <= m_start m)%nat /\ (m_start m <= m_end m)%nat
    /\ (m_end m <= len)%nat.
Proof.
  induction ms as [|m0 ms IH]; intros last m Hok Hin; [destruct Hin|].
  destruct Hok as (H1 & H2 & H3 & Hok).
  destruct Hin as [<-|Hin]; [auto|].
  eapply IH in Hok; [|exact Hin]. destruct Hok as (H4 & H5 & H6).
  repeat split; lia.
Qed.

Lemma finditer_span (r : regex) (text : str) (m : match_obj) :
  In m (finditer r text) ->
  (m_start m <= m_end m)%nat /\ (m_end m <= length text)%nat.
Proof.
  intros Hin.
  destruct (finditer_from_spans r text (S (length text)) 0) as [Hok _].
  eapply spans_ok_each in Hok; [|exact Hin]. tauto.
Qed.

Lemma pattern_starts_with_digit (text : str) (pos : nat) (rest : str)
      (m : match_obj) :
  match_here pattern text pos rest = Some m ->
  exists c rest', rest = c :: rest' /\ isdecimal c = true.
Proof.
  intros H. destruct rest as [|c rest'].
  - now rewrite pattern_needs_digit in H.
  - destruct (isdecimal c) eqn:E; [eauto|].
    now rewrite pattern_needs_digit in H.
Qed.

Lemma star_loop_total (A : Type) step fuel pos rest caps (k : cont A) :
  (forall p t c, k p t c <> None) ->
  star_loop step fuel pos rest caps k <> None.
Proof.
  intros Hk. destruct fuel as [|fuel]; cbn [star_loop]; [apply Hk|].
  destruct (step pos rest caps _); [discriminate | apply Hk].
Qed.

Lemma digits_pattern_matches (c : char) (rest : str) :
  isdecimal c = true ->
  exists number_match, re_match digits_pattern (c :: rest) = Some number_match.
Proof.
  intros Hc. unfold re_match, match_here, digits_pattern, Plus.
  cbn [run]. rewrite Hc.
  match goal with
  | |- exists _, ?t = _ => destruct t eqn:E; [eauto|]
  end.
  exfalso. revert E. apply star_loop_total. discriminate.
Qed.

Lemma startswith_app (s t : str) : startswith (s ++ t) s = true.
Proof.
  induction s as [|c s IH]; [now destruct t|].
  cbn [app startswith]. now rewrite N.eqb_refl, IH.
Qed.

Lemma lstrip_before_word (pre w : str) :
  match w with [] => False | c :: _ => isspace c = false end ->
  exists pre', lstrip (pre ++ w) = pre' ++ w.
Proof.
  intros Hw. induction pre as [|c pre (pre' & IH)].
  - exists []. destruct w as [|x w]; [contradiction|].
    cbn [app]. now rewrite lstrip_keep.
  - cbn [app lstrip]. destruct (isspace c).
    + now exists pre'.
    + now exists (c :: pre).
Qed.

(** A word without whitespace that is followed by whitespace only is the
    end of the stripped text. *)
Lemma endswith_strip_word (pre w ws : str) :
  w <> [] -> Forall (fun c => isspace c = false) w -> all_space ws ->
  endswith (strip (pre ++ w ++ ws)) w = true.
Proof.
  intros Hne Hw Hws.
  destruct (@lstrip_before_word pre (w ++ ws)) as (pre' & Hl).
  { destruct w as [|x w]; [congruence|].
    now apply Forall_cons_iff in Hw. }
  unfold endswith, strip, rstrip. rewrite rev_involutive, Hl.
  rewrite !rev_app_distr, <- app_assoc.
  rewrite lstrip_app_space by now apply all_space_rev.
  destruct (rev w) as [|x u] eqn:E.
  - apply (f_equal (@rev char)) in E. rewrite rev_involutive in E.
    now subst.
  - assert (Hx : isspace x = false).
    { apply Forall_rev in Hw. rewrite E in Hw.
      now apply Forall_cons_iff in Hw. }
    cbn [app]. rewrite lstrip_keep by exact Hx.
    change (x :: u ++ rev pre') with ((x :: u) ++ rev pre').
    apply startswith_app.
Qed.

(** X5.  A numeral token that comes after the word "Jahr", directly or
    after whitespace, is emitted as it stands. *)
Theorem X5_after_Jahr_verbatim (text : str) (m : match_obj) (pre ws : str) :
  In m (finditer pattern text) ->
  slice text 0 (Z.of_nat (m_start m)) = pre ++ lit "Jahr" ++ ws ->
  all_space ws ->
  rewrite_match text m = Ok (group m 0).
Proof.
  intros Hin Hbefore Hws.
  pose proof (finditer_span _ _ _ Hin) as [Hse Hel].
  apply finditer_here in Hin.
  apply pattern_starts_with_digit in Hin.
  destruct Hin as (c & rest & Hrest & Hc).
  unfold rewrite_match.
  destruct (is_part_of_date text (m_start m)); [reflexivity|].
  unfold is_year.
  rewrite slice_from_nat, Hrest by lia.
  destruct (@digits_pattern_matches c rest Hc) as (nm & ->).
  rewrite Hbefore, endswith_strip_word;
    [reflexivity | discriminate | repeat constructor | exact Hws].
Qed.

(* ================================================================== *)
(** ** Instances *)



Lemma X5_after_Jahr_verbatim_witness :
  rewrite_match (lit "Im Jahr 2024") (first_match (lit "Im Jahr 2024"))
  = Ok (group (first_match (lit "Im Jahr 2024")) 0).
Proof.
  apply (@X5_after_Jahr_verbatim (lit "Im Jahr 2024")
           (first_match (lit "Im Jahr 2024")) (lit "Im ") (lit " ")).
  - left. vm_compute. reflexivity.
  - vm_compute. reflexivity.
  - repeat constructor.
Defined.

(* ================================================================== *)
(** ** What the matcher has read *)

Lemma skipn_cons_tail (text : str) (pos : nat) (x : char) (rest : str) :
  skipn pos text = x :: rest ->
  skipn (S pos) text = rest /\ (S pos <= length text)%nat.
Proof.
  intros H. split.
  - replace (S pos) with (1 + pos)%nat by lia.
    rewrite <- skipn_skipn, H. reflexivity.
  - destruct (Nat.le_gt_cases (S pos) (length text)) as [|Hgt]; [assumption|].
    rewrite skipn_all2 in H by lia. discriminate.
Qed.

Lemma keeps_refl (caps : captures) : keeps caps caps.
Proof. intros n H. exact H. Qed.

Lemma keeps_trans (c1 c2 c3 : captures) :
  keeps c1 c2 -> keeps c2 c3 -> keeps c1 c3.
Proof. intros H1 H2 n H. auto. Qed.

Lemma keeps_cons (caps : captures) (c : nat * (nat * nat)) :
  keeps caps (c :: caps).
Proof.
  intros n H. destruct c as [k span]. cbn [lookup].
  destruct (Nat.eqb k n); [discriminate | exact H].
Qed.

Section RunReads.

Variable A : Type.
Variable G : list (nat * regex).
Variable text : str.

(** Whenever a matcher for [r] succeeds, it has read a string that [r]
    matches and has called its continuation behind that string, with
    captures that are still true of the text. *)
Definition reads (r : regex) (ns : list nat)
           (step : nat -> str -> captures -> cont A -> option A) : Prop :=
  forall pos caps k x,
    (pos <= length text)%nat ->
    caps_ok G text caps ->
    step pos (skipn pos text) caps k = Some x ->
    exists s caps',
      matches r s
      /\ skipn pos text = s ++ skipn (pos + length s) text
      /\ (pos + length s <= length text)%nat
      /\ caps_ok G text caps'
      /\ keeps caps caps'
      /\ has_groups ns caps'
      /\ k (pos + length s)%nat (skipn (pos + length s) text) caps' = Some x.

Lemma star_loop_reads (r : regex) (ns : list nat) step :
  reads r ns step -> forall fuel, reads (Star r) [] (star_loop step fuel).
Proof.
  intros Hstep fuel.
  induction fuel as [|fuel IH]; intros pos caps k x Hpos Hcaps H;
    cbn [star_loop] in H.
  - exists [], caps. rewrite Nat.add_0_r. cbn [app length].
    repeat split; auto using keeps_refl; try constructor.
    intros n [].
  - destruct (step pos (skipn pos text) caps _) as [y|] eqn:E.
    + injection H as ->.
      apply Hstep in E; [|assumption ..].
      destruct E as (s1 & c1 & Hm1 & Hs1 & Hl1 & Hc1 & Hk1 & _ & E).
      destruct (Nat.eqb (pos + length s1) pos); [discriminate|].
      apply IH in E; [|assumption ..].
      destruct E as (s2 & c2 & Hm2 & Hs2 & Hl2 & Hc2 & Hk2 & _ & E).
      exists (s1 ++ s2), c2. rewrite length_app, Nat.add_assoc.
      repeat split; auto.
      * now constructor.
      * rewrite <- app_assoc, <- Hs2. exact Hs1.
      * eauto using keeps_trans.
      * intros n [].
    + exists [], caps. rewrite Nat.add_0_r. cbn [app length].
      repeat split; auto using keeps_refl; try constructor.
      intros n [].
Qed.

Lemma run_reads (r : regex) :
  incl (groups r) G -> reads r (sure_groups r) (run (A:=A) r).
Proof.
  induction r as [c | p | | r1 IH1 r2 IH2 | r1 IH1 r2 IH2 | r1 IH1 | n r1 IH1];
    intros HG pos caps k x Hpos Hcaps H; cbn [run groups sure_groups] in *.
  - destruct (skipn pos text) as [|y rest] eqn:E; [discriminate|].
    destruct (N.eqb_spec y c) as [->|]; [|discriminate].
    apply skipn_cons_tail in E. destruct E as [E Hlen].
    exists [c], caps. cbn [length app]. rewrite Nat.add_1_r, E.
    repeat split; auto using keeps_refl; try constructor. intros n [].
  - destruct (skipn pos text) as [|y rest] eqn:E; [discriminate|].
    destruct (p y) eqn:Hp; [|discriminate].
    apply skipn_cons_tail in E. destruct E as [E Hlen].
    exists [y], caps. cbn [length app]. rewrite Nat.add_1_r, E.
    repeat split; auto using keeps_refl; try (now constructor). intros n [].
  - exists [], caps. rewrite Nat.add_0_r. cbn [app length].
    repeat split; auto using keeps_refl; try constructor. intros n [].
  - apply incl_app_inv in HG. destruct HG as [HG1 HG2].
    apply (IH1 HG1) in H; [|assumption ..].
    destruct H as (s1 & c1 & Hm1 & Hs1 & Hl1 & Hc1 & Hk1 & Hg1 & H).
    apply (IH2 HG2) in H; [|assumption ..].
    destruct H as (s2 & c2 & Hm2 & Hs2 & Hl2 & Hc2 & Hk2 & Hg2 & H).
    exists (s1 ++ s2), c2. rewrite length_app, Nat.add_assoc.
    repeat split; auto.
    + now constructor.
    + rewrite <- app_assoc, <- Hs2. exact Hs1.
    + eauto using keeps_trans.
    + intros n Hn. apply in_app_or in Hn. destruct Hn as [Hn|Hn]; auto.
  - apply incl_app_inv in HG. destruct HG as [HG1 HG2].
    destruct (run r1 pos (skipn pos text) caps k) as [y|] eqn:E.
    + injection H as ->. apply (IH1 HG1) in E; [|assumption ..].
      destruct E as (s & c & Hm & Hs & Hl & Hc & Hk & _ & E).
      exists s, c. repeat split; auto.
      * now apply M_alt_l.
      * intros n [].
    + apply (IH2 HG2) in H; [|assumption ..].
      destruct H as (s & c & Hm & Hs & Hl & Hc & Hk & _ & E').
      exists s, c. repeat split; auto.
      * now apply M_alt_r.
      * intros n [].
  - pose proof (@star_loop_reads r1 (sure_groups r1) (run r1) (IH1 HG)
                  (length (skipn pos text))) as Hstar.
    apply Hstar in H; assumption.
  - assert (HG1 : incl (groups r1) G) by (eapply incl_cons_inv; eauto).
    assert (Hin : In (n, r1) G) by (apply HG; now left).
    apply (IH1 HG1) in H; [|assumption ..].
    destruct H as (s & c & Hm & Hs & Hl & Hc & Hk & Hg & H).
    exists s, ((n, (pos, pos + length s)%nat) :: c).
    repeat split; auto.
    + now constructor.
    + constructor; [|exact Hc]. cbn. repeat split; [lia | lia |].
      exists r1. split; [exact Hin|].
      replace (pos + length s - pos)%nat with (length s) by lia.
      rewrite Hs, firstn_app, Nat.sub_diag, firstn_all. cbn [firstn].
      now rewrite app_nil_r.
    + eauto using keeps_trans, keeps_cons.
    + intros m [<-|Hm']; cbn [lookup].
      * rewrite Nat.eqb_refl. discriminate.
      * destruct (Nat.eqb n m); [discriminate | auto].
Qed.

End RunReads.

Lemma match_here_reads (r : regex) (text : str) (pos : nat) (m : match_obj) :
  (pos <= length text)%nat ->
  match_here r text pos (skipn pos text) = Some m ->
  exists s,
    matches r s
    /\ skipn pos text = s ++ skipn (m_end m) text
    /\ m_end m = (pos + length s)%nat
    /\ caps_ok (groups r) text (m_caps m)
    /\ has_groups (sure_groups r) (m_caps m).
Proof.
  intros Hpos H. unfold match_here in H.
  apply (@run_reads _ (groups r) text r (incl_refl _)) in H;
    [|exact Hpos | constructor].
  destruct H as (s & c & Hm & Hs & Hl & Hc & _ & Hg & H).
  injection H as <-. cbn. exists s. auto.
Qed.

Lemma lookup_in (n : nat) (caps : captures) (span : nat * nat) :
  lookup n caps = Some span -> In (n, span) caps.
Proof.
  induction caps as [|[k sp] caps IH]; cbn [lookup]; [discriminate|].
  destruct (Nat.eqb_spec k n) as [->|].
  - intros H. injection H as ->. now left.
  - intros H. right. auto.
Qed.

(** A group that takes part in every match holds a string that the group
    of that number matches. *)
Lemma group_matches (r : regex) (text : str) (m : match_obj) (n : nat) :
  m_string m = text ->
  caps_ok (groups r) text (m_caps m) ->
  has_groups (sure_groups r) (m_caps m) ->
  In (S n) (sure_groups r) ->
  exists r', In (S n, r') (groups r) /\ matches r' (group m (S n)).
Proof.
  intros Hstr Hcaps Hhas Hn. specialize (Hhas _ Hn).
  unfold group. destruct (lookup (S n) (m_caps m)) as [[a b]|] eqn:E;
    [|congruence].
  apply lookup_in in E. unfold caps_ok in Hcaps.
  rewrite Forall_forall in Hcaps. apply Hcaps in E.
  destruct E as (Hab & Hb & r' & Hin & Hm).
  exists r'. split; [exact Hin|].
  rewrite Hstr, slice_nat by lia. exact Hm.
Qed.

(* ------------------------------------------------------------------ *)

Lemma matches_star_class (p : char -> bool) (s : str) :
  matches (Star (Class p)) s -> Forall (fun c => p c = true) s.
Proof.
  intros H. remember (Star (Class p)) as r eqn:Hr.
  induction H as [| | | | | | |r s1 s2 H1 _ H2 IH2|]; try discriminate.
  - constructor.
  - injection Hr as ->. apply Forall_app. split; [|auto].
    inversion H1; subst. now repeat constructor.
Qed.

Lemma matches_plus_class (p : char -> bool) (s : str) :
  matches (Plus (Class p)) s -> s <> [] /\ Forall (fun c => p c = true) s.
Proof.
  intros H. inversion H as [| | |r1 r2 s1 s2 H1 H2| | | | |]; subst.
  inversion H1; subst. apply matches_star_class in H2.
  split; [discriminate | now constructor].
Qed.

Lemma decimal_not_punct (c : char) :
  isdecimal c = true -> c <> dot /\ c <> comma.
Proof.
  intros Hc. split; intros ->; vm_compute in Hc; discriminate.
Qed.

Lemma replace_digits (s : str) (c : char) (t : str) :
  (c = dot \/ c = comma) ->
  Forall (fun x => isdecimal x = true) s -> replace s c t = s.
Proof.
  intros Hc Hs. apply replace_keep. eapply Forall_impl; [|exact Hs].
  intros x Hx. apply decimal_not_punct in Hx. destruct Hc; subst; tauto.
Qed.

(** In [(?:\.\d+)*] the dots are all that is not a digit. *)
Lemma matches_dot_groups (s : str) :
  matches (Star (Cat (Chr dot) (Plus (Class isdecimal)))) s ->
  Forall (fun c => isdecimal c = true) (replace s dot []).
Proof.
  intros H.
  remember (Star (Cat (Chr dot) (Plus (Class isdecimal)))) as r eqn:Hr.
  induction H as [| | | | | | |r s1 s2 H1 _ H2 IH2|]; try discriminate.
  - constructor.
  - injection Hr as ->. rewrite replace_app. apply Forall_app.
    split; [|auto].
    inversion H1 as [| | |r1 r2 t1 t2 Ht1 Ht2| | | | |]; subst.
    inversion Ht1; subst. apply matches_plus_class in Ht2.
    destruct Ht2 as [_ Ht2].
    cbn [app]. rewrite replace_cons, N.eqb_refl. cbn [app].
    now rewrite replace_digits by auto.
Qed.

(** [(?:,\d+)?] is empty or a comma and digits. *)
Lemma matches_comma_part (s : str) :
  matches (Opt (Cat (Chr comma) (Plus (Class isdecimal)))) s ->
  s = [] \/ exists fp, fp <> [] /\ Forall (fun c => isdecimal c = true) fp
                       /\ s = comma :: fp.
Proof.
  intros H. inversion H as [| | | |r1 r2 t Ht|r1 r2 t Ht| | |]; subst.
  - right. inversion Ht as [| | |r1 r2 t1 t2 Ht1 Ht2| | | | |]; subst.
    inversion Ht1; subst. apply matches_plus_class in Ht2.
    destruct Ht2 as [Hne Hd]. exists t2. auto.
  - left. now inversion Ht.
Qed.

Lemma numeral_is_literal (s : str) :
  matches numeral_re s ->
  decimal_literal (replace (replace s dot []) comma [dot]).
Proof.
  intros H. inversion H as [| | |r1 r2 d0 s' Hd0 Hs'| | | | |]; subst.
  inversion Hs' as [| | |r1 r2 g f Hg Hf| | | | |]; subst.
  apply matches_plus_class in Hd0. destruct Hd0 as [Hne0 Hd0].
  apply matches_dot_groups in Hg. apply matches_comma_part in Hf.
  rewrite !replace_app.
  rewrite (replace_digits (s:=d0)) by auto.
  rewrite (replace_digits (s:=d0)) by auto.
  rewrite (replace_digits (s:=replace g dot [])) by auto.
  exists (d0 ++ replace g dot []).
  destruct Hf as [->|(fp & Hnef & Hfp & ->)].
  - exists []. cbn [replace flat_map]. rewrite !app_nil_r.
    repeat split; auto.
    + intros E. apply app_eq_nil in E. tauto.
    + now apply Forall_app.
  - exists fp. rewrite replace_cons.
    replace (N.eqb comma dot) with false by reflexivity.
    cbn [app]. rewrite (replace_digits (s:=fp)) by auto.
    rewrite replace_cons, N.eqb_refl.
    rewrite (replace_digits (s:=fp)) by auto.
    repeat split; auto.
    + intros E. apply app_eq_nil in E. tauto.
    + now apply Forall_app.
    + right. split; [exact Hnef|]. now rewrite <- app_assoc.
Qed.

Lemma percent_numeral_is_literal (s : str) :
  matches percent_numeral_re s -> decimal_literal (replace s comma [dot]).
Proof.
  intros H. inversion H as [| | |r1 r2 d0 f Hd0 Hf| | | | |]; subst.
  apply matches_plus_class in Hd0. destruct Hd0 as [Hne0 Hd0].
  apply matches_comma_part in Hf.
  rewrite replace_app, (replace_digits (s:=d0)) by auto.
  exists d0. destruct Hf as [->|(fp & Hnef & Hfp & ->)].
  - exists []. cbn [replace flat_map]. rewrite app_nil_r. auto.
  - exists fp. rewrite replace_cons, N.eqb_refl.
    rewrite (replace_digits (s:=fp)) by auto. cbn [app]. auto 6.
Qed.

Lemma digits_value_some (s : str) :
  Forall (fun c => isdecimal c = true) s ->
  forall acc, exists n, digits_value s acc = Some n.
Proof.
  induction 1 as [|c s Hc Hs IH]; intros acc; cbn [digits_value]; [eauto|].
  unfold isdecimal in Hc. destruct (digit_value c); [apply IH | discriminate].
Qed.

Lemma split_at_dot_digits (ip tail : str) :
  Forall (fun c => isdecimal c = true) ip ->
  split_at_dot (ip ++ dot :: tail) = (ip, Some tail).
Proof.
  induction 1 as [|c s Hc Hs IH]; cbn [app split_at_dot].
  - change (chr ".") with dot. now rewrite N.eqb_refl.
  - rewrite IH. apply decimal_not_punct in Hc.
    change (chr ".") with dot.
    destruct (N.eqb_spec c dot); [tauto | reflexivity].
Qed.

(** [float] reads every decimal literal. *)
Lemma py_float_literal (s : str) :
  decimal_literal s -> exists v, py_float s = Ok v.
Proof.
  intros (ip & fp & Hne & Hip & Hfp & [->|[Hnef ->]]); unfold py_float.
  - rewrite split_at_dot_plain.
    + rewrite app_nil_r. destruct ip as [|c ip]; [congruence|].
      destruct (@digits_value_some (c :: ip) Hip 0) as (n & ->). eauto.
    + eapply Forall_impl; [|exact Hip].
      intros c Hc. now apply decimal_not_punct in Hc.
  - rewrite split_at_dot_digits by exact Hip.
    destruct (ip ++ fp) as [|c u] eqn:E.
    + apply app_eq_nil in E. tauto.
    + rewrite <- E.
      destruct (@digits_value_some (ip ++ fp)
                  (proj2 (Forall_app _ _ _) (conj Hip Hfp)) 0) as (n & ->).
      eauto.
Qed.

(* ================================================================== *)
(** ** The tokens of the two passes *)

Lemma finditer_reads (r : regex) (text : str) (m : match_obj) :
  In m (finditer r text) ->
  m_string m = text
  /\ caps_ok (groups r) text (m_caps m)
  /\ has_groups (sure_groups r) (m_caps m).
Proof.
  intros Hin.
  pose proof (finditer_span _ _ _ Hin) as [Hse Hel].
  pose proof (finditer_ngroups _ _ _ Hin) as [Hstr _].
  apply finditer_here in Hin.
  apply match_here_reads in Hin; [|lia].
  destruct Hin as (s & _ & _ & _ & Hc & Hg). auto.
Qed.

(** The groups of a token of the quantity pass. *)
Lemma token_groups (text : str) (m : match_obj) :
  In m (finditer pattern text) ->
  matches numeral_re (group m 1) /\ matches suffix_re (group m 2).
Proof.
  intros Hin. apply finditer_reads in Hin. destruct Hin as (Hs & Hc & Hg).
  split.
  - destruct (@group_matches pattern text m 0 Hs Hc Hg) as (r' & Hin & Hm);
      [now left|].
    destruct Hin as [E|[E|[]]]; [|discriminate].
    injection E as <-. exact Hm.
  - destruct (@group_matches pattern text m 1 Hs Hc Hg) as (r' & Hin & Hm);
      [right; now left|].
    destruct Hin as [E|[E|[]]]; [discriminate|].
    injection E as <-. exact Hm.
Qed.

(** The group of a token of the percentage pass. *)
Lemma percent_token_group (text : str) (m : match_obj) :
  In m (finditer percent_pattern text) ->
  matches percent_numeral_re (group m 1).
Proof.
  intros Hin. apply finditer_reads in Hin. destruct Hin as (Hs & Hc & Hg).
  destruct (@group_matches percent_pattern text m 0 Hs Hc Hg)
    as (r' & Hin & Hm); [now left|].
  destruct Hin as [E|[]]. injection E as <-. exact Hm.
Qed.

Lemma token_number (text : str) (m : match_obj) :
  In m (finditer pattern text) ->
  exists N, convert_german_number (group m 1) = Ok N.
Proof.
  intros Hin. apply token_groups in Hin. destruct Hin as [Hnum _].
  unfold convert_german_number.
  now apply py_float_literal, numeral_is_literal.
Qed.

Lemma simplify_percentage_returns (text : str) (m : match_obj) :
  In m (finditer percent_pattern text) ->
  exists s, simplify_percentage m = Ok s.
Proof.
  intros Hin. apply percent_token_group in Hin.
  apply percent_numeral_is_literal, py_float_literal in Hin.
  destruct Hin as (N & HN). unfold simplify_percentage. rewrite HN.
  cbn [bind]. destruct N as [mN eN|].
  - destruct (py_round_nearest mN eN) as (n & -> & _). cbn [bind].
    repeat match goal with
           | |- context [if ?b then _ else _] => destruct b
           end; eauto.
  - cbn. eauto.
Qed.

Lemma sub_from_returns (repl : match_obj -> result str) (text : str)
      (ms : list match_obj) :
  (forall m, In m ms -> exists s, repl m = Ok s) ->
  forall last, exists t, sub_from repl text ms last = Ok t.
Proof.
  induction ms as [|m ms IH]; intros Hall last; cbn [sub_from]; [eauto|].
  destruct (Hall m (or_introl eq_refl)) as (s & ->). cbn [bind].
  destruct (IH (fun m' H => Hall m' (or_intror H)) (m_end m)) as (t & ->).
  cbn [bind]. eauto.
Qed.

Lemma percent_pass_returns (text : str) :
  exists t, sub percent_pattern simplify_percentage text = Ok t.
Proof.
  unfold sub. apply sub_from_returns.
  intros m Hin. eapply simplify_percentage_returns; eauto.
Qed.

(** X6.  [convert_german_number] never raises on the numeral of a token
    that the quantity pass has found: the [except ValueError] branch of
    [simplify_regular_number] is never taken. *)
Theorem X6_token_number_parses (text : str) (m : match_obj) :
  In m (finditer pattern text) ->
  exists N, convert_german_number (group m 1) = Ok N.
Proof. apply token_number. Qed.

Lemma X6_token_number_parses_witness :
  exists N,
    convert_german_number (group (first_match (lit "x 1.234,5 kg")) 1) = Ok N.
Proof.
  apply (@X6_token_number_parses (lit "x 1.234,5 kg")).
  left. vm_compute. reflexivity.
Defined.

Lemma numeral_characters (s : str) :
  matches numeral_re s ->
  s <> []
  /\ Forall (fun c => isdecimal c = true \/ c = dot \/ c = comma) s.
Proof.
  intros Hnum.
  inversion Hnum as [| | |r1 r2 d0 s' Hd0 Hs'| | | | |]; subst.
  inversion Hs' as [| | |r1 r2 g f Hg Hf| | | | |]; subst.
  apply matches_plus_class in Hd0. destruct Hd0 as [Hne Hd0].
  apply matches_comma_part in Hf.
  split; [intros E; apply app_eq_nil in E; tauto|].
  apply Forall_app. split; [|apply Forall_app; split].
  - eapply Forall_impl; [|exact Hd0]. auto.
  - clear - Hg.
    remember (Star (Cat (Chr dot) (Plus (Class isdecimal)))) as r eqn:Hr.
    induction Hg as [| | | | | | |r s1 s2 H1 _ H2 IH2|]; try discriminate;
      [constructor|].
    injection Hr as ->. apply Forall_app. split; [|auto].
    inversion H1 as [| | |r1 r2 t1 t2 Ht1 Ht2| | | | |]; subst.
    inversion Ht1; subst. apply matches_plus_class in Ht2.
    destruct Ht2 as [_ Ht2]. constructor; [auto|].
    eapply Forall_impl; [|exact Ht2]. auto.
  - destruct Hf as [->|(fp & _ & Hfp & ->)]; constructor; [auto|].
    eapply Forall_impl; [|exact Hfp]. auto.
Qed.

Lemma suffix_letters (s : str) :
  matches suffix_re s -> Forall (fun c => is_letter c = true) s.
Proof.
  intros Hsuf.
  inversion Hsuf as [| | | |r1 r2 t Ht|r1 r2 t Ht| | |]; subst.
  - inversion Ht as [| | | |r1 r2 t' Ht'|r1 r2 t' Ht'| | |]; subst.
    + cbn [Str lit] in Ht'.
      repeat match goal with
             | H : matches (Cat _ _) _ |- _ => inversion H; subst; clear H
             | H : matches (Chr _) _ |- _ => inversion H; subst; clear H
             | H : matches Empty _ |- _ => inversion H; subst; clear H
             end.
      repeat constructor.
    + apply matches_plus_class in Ht'. tauto.
  - inversion Ht. constructor.
Qed.

(** X7.  The numeral of a token is made of decimal digits, dots and commas
    and is not empty; its suffix is made of the letters of the pattern
    (and may be empty). *)
Theorem X7_token_characters (text : str) (m : match_obj) :
  In m (finditer pattern text) ->
  group m 1 <> []
  /\ Forall (fun c => isdecimal c = true \/ c = dot \/ c = comma) (group m 1)
  /\ Forall (fun c => is_letter c = true) (group m 2).
Proof.
  intros Hin. apply token_groups in Hin. destruct Hin as [Hnum Hsuf].
  apply numeral_characters in Hnum. apply suffix_letters in Hsuf. tauto.
Qed.

Lemma X7_token_characters_witness :
  let m := first_match (lit "x 1.234,5 kg") in
  group m 1 <> []
  /\ Forall (fun c => isdecimal c = true \/ c = dot \/ c = comma) (group m 1)
  /\ Forall (fun c => is_letter c = true) (group m 2).
Proof.
  apply (@X7_token_characters (lit "x 1.234,5 kg")).
  left. vm_compute. reflexivity.
Defined.

(** X8.  The first step never raises: for every text the replacement of
    the percentages returns a text. *)
Theorem X8_percent_pass_returns (text : str) :
  exists t, sub percent_pattern simplify_percentage text = Ok t.
Proof. apply percent_pass_returns. Qed.

(* ================================================================== *)
(** ** The exceptions of the second step *)

(** Rounding to the nearest integer keeps integer bounds. *)
Lemma round_half_even_ge (m d k : Z) :
  0 < d -> k * d <= m -> k <= round_half_even m d.
Proof.
  intros Hd Hk. unfold round_half_even.
  pose proof (Z.div_mod m d ltac:(lia)) as Hdm.
  pose proof (Z.mod_pos_bound m d Hd) as Hr.
  assert (Hq : k <= m / d) by (apply Z.div_le_lower_bound; lia).
  destruct (2 * (m mod d) ?= d); [destruct (Z.even (m / d))|..]; lia.
Qed.

Lemma round_half_even_le (m d k : Z) :
  0 < d -> m <= k * d -> round_half_even m d <= k.
Proof.
  intros Hd Hk. unfold round_half_even.
  pose proof (Z.div_mod m d ltac:(lia)) as Hdm.
  pose proof (Z.mod_pos_bound m d Hd) as Hr.
  assert (Hq : m / d <= k) by (apply Z.div_le_upper_bound; lia).
  destruct (Z.eq_dec (m / d) k) as [Heq|Hne].
  - assert (Hr0 : m mod d = 0) by nia.
    rewrite Hr0. replace (2 * 0 ?= d) with Lt by (symmetry; apply Z.compare_lt_iff; lia).
    lia.
  - destruct (2 * (m mod d) ?= d); [destruct (Z.even (m / d))|..]; lia.
Qed.

Lemma nearest_integer_ge (m e k : Z) :
  compare_Z (Fin m e) k <> Lt -> k <= nearest_integer m e.
Proof.
  unfold compare_Z, nearest_integer. destruct (Z.leb_spec 0 e) as [He|He].
  - intros H. apply Z.compare_ge_iff in H. lia.
  - intros H. apply Z.compare_ge_iff in H.
    apply round_half_even_ge; [apply Z.pow_pos_nonneg; lia | lia].
Qed.

Lemma py_round_fin (m e : Z) : py_round (Fin m e) = Ok (nearest_integer m e).
Proof.
  unfold py_round, nearest_integer. now destruct (0 <=? e).
Qed.

Lemma py_round_error (x : float) (e : exn) :
  py_round x = Raise e -> e = OverflowError.
Proof. destruct x; [rewrite py_round_fin; discriminate|]. cbn. congruence. Qed.

Lemma of_Z_error (n : Z) (e : exn) : of_Z n = Raise e -> e = OverflowError.
Proof. unfold of_Z. destruct (of_ratio n 1); [discriminate | congruence]. Qed.

Lemma truediv_int_error (x : float) (n : Z) (e : exn) :
  0 < n -> truediv_int x n = Raise e -> e = OverflowError.
Proof.
  intros Hn. unfold truediv_int.
  destruct (Z.leb_spec n 0) as [Hle|_]; [lia|].
  destruct (of_Z n) as [y|e'] eqn:E; cbn [bind].
  - destruct x, y; discriminate.
  - intros H. injection H as <-. now apply of_Z_error in E.
Qed.

Lemma replace_nil_filter (s : str) (c : char) :
  replace s c [] = filter (fun x => negb (N.eqb x c)) s.
Proof.
  induction s as [|x s IH]; [reflexivity|].
  rewrite replace_cons, IH. cbn [filter]. now destruct (N.eqb x c).
Qed.

(** Without its commas the [,.0f] format of a finite float is the decimal
    string of the nearest integer. *)
Lemma format_comma_0f_digits (m e : Z) :
  0 <= nearest_integer m e ->
  replace (format_comma_0f (Fin m e)) comma []
  = str_of_Z (nearest_integer m e).
Proof.
  intros Hn. unfold format_comma_0f. fold (nearest_integer m e).
  rewrite replace_nil_filter, filter_with_commas
    by (now rewrite N.eqb_refl).
  apply filter_all. destruct (str_of_Z_digits Hn) as [Hd _].
  eapply Forall_impl; [|exact Hd].
  intros c Hc. apply ascii_digit_plain in Hc.
  apply negb_true_iff, N.eqb_neq. tauto.
Qed.

(** From 100000 on, the string whose length [round_to_significant] takes
    has six characters or more. *)
Lemma num_length_large (x : float) :
  geb_Z x 100000 = true ->
  6 <= Z.of_nat (length (replace (format_comma_0f x) comma []))
  \/ x = Inf.
Proof.
  intros Hge. destruct x as [m e|]; [left | now right].
  assert (Hn : 100000 <= nearest_integer m e).
  { apply nearest_integer_ge. unfold geb_Z in Hge.
    destruct (compare_Z (Fin m e) 100000); congruence. }
  rewrite format_comma_0f_digits by lia.
  destruct (@str_of_Z_bounds (nearest_integer m e) ltac:(lia)) as [_ Hhi].
  destruct (Z.le_gt_cases 6 (Z.of_nat (length (str_of_Z (nearest_integer m e)))))
    as [|Hlt]; [assumption|].
  assert (10 ^ Z.of_nat (length (str_of_Z (nearest_integer m e))) <= 10 ^ 5)
    by (apply Z.pow_le_mono_r; lia).
  change (10 ^ 5) with 100000 in *. lia.
Qed.

Lemma round_to_significant_error (x : float) (e : exn) :
  round_to_significant x = Raise e -> e = OverflowError.
Proof.
  unfold round_to_significant.
  destruct (ltb_Z x 100); [apply py_round_error|].
  destruct (geb_Z x 100000) eqn:Hge.
  - assert (Hmag : 0 < 10 ^ (Z.of_nat
                     (length (replace (format_comma_0f x) comma [])) - 3)).
    { apply Z.pow_pos_nonneg; [lia|].
      destruct (num_length_large _ Hge) as [H| ->]; [lia|].
      cbn. lia. }
    destruct (truediv_int x _) as [q|e'] eqn:Eq; cbn [bind].
    + destruct (py_round q) as [n|e'] eqn:En; cbn [bind]; [discriminate|].
      intros H. injection H as <-. now apply py_round_error in En.
    + intros H. injection H as <-. now apply truediv_int_error in Eq.
  - destruct (geb_Z x 1000).
    + destruct (truediv_int x 1000) as [q|e'] eqn:Eq; cbn [bind].
      * destruct (py_round q) as [n|e'] eqn:En; cbn [bind]; [discriminate|].
        intros H. injection H as <-. now apply py_round_error in En.
      * intros H. injection H as <-. apply truediv_int_error in Eq; [auto|lia].
    + destruct (truediv_int x 100) as [q|e'] eqn:Eq; cbn [bind].
      * destruct (py_round q) as [n|e'] eqn:En; cbn [bind]; [discriminate|].
        intros H. injection H as <-. now apply py_round_error in En.
      * intros H. injection H as <-. apply truediv_int_error in Eq; [auto|lia].
Qed.

Lemma simplify_regular_number_error (text : str) (m : match_obj) (pos : nat)
      (N : float) (e : exn) :
  convert_german_number (group m 1) = Ok N ->
  simplify_regular_number text m pos = Raise e -> e = OverflowError.
Proof.
  intros HN. unfold simplify_regular_number. rewrite HN. cbn [bind].
  destruct (round_to_significant N) as [rounded|e'] eqn:Er; cbn [bind].
  - destruct (py_round N) as [n|e'] eqn:En; cbn [bind try_except];
      [discriminate|].
    apply py_round_error in En. subst e'. cbn. congruence.
  - apply round_to_significant_error in Er. subst e'. cbn. congruence.
Qed.

Lemma is_year_error (text : str) (pos : nat) (e : exn) :
  is_year text pos = Raise e -> e = IndexError.
Proof.
  unfold is_year.
  destruct (re_match _ _); [|discriminate].
  destruct (endswith _ _); [discriminate|].
  destruct (_ && _); [|discriminate].
  destruct (rev _); [congruence | discriminate].
Qed.

Lemma rewrite_match_error (text : str) (m : match_obj) (e : exn) :
  In m (finditer pattern text) ->
  rewrite_match text m = Raise e -> e = IndexError \/ e = OverflowError.
Proof.
  intros Hin. destruct (token_number _ _ Hin) as (N & HN).
  unfold rewrite_match.
  destruct (is_part_of_date text (m_start m)); cbn [bind negb];
    [discriminate|].
  destruct (is_year text (m_start m)) as [[|]|e'] eqn:Ey; cbn [bind negb].
  - discriminate.
  - intros H. right. eapply simplify_regular_number_error; eauto.
  - intros H. injection H as <-. left. now apply is_year_error in Ey.
Qed.

Lemma number_loop_error (text : str) (ms : list match_obj) (e : exn) :
  (forall m, In m ms -> In m (finditer pattern text)) ->
  forall acc last,
    number_loop text ms acc last = Raise e ->
    e = IndexError \/ e = OverflowError.
Proof.
  induction ms as [|m ms IH]; intros Hms acc last H; cbn [number_loop] in H;
    [discriminate|].
  destruct (rewrite_match text m) as [s|e'] eqn:Er; cbn [bind] in H.
  - eapply IH; [|exact H]. intros m' Hm'. apply Hms. now right.
  - injection H as <-. eapply rewrite_match_error; [|exact Er].
    apply Hms. now left.
Qed.

(** X9.  [simplify_numbers] raises nothing but [IndexError] and
    [OverflowError]: no [ValueError] and no [ZeroDivisionError] leaves
    it. *)
Theorem X9_only_index_and_overflow (raw_text : str) (e : exn) :
  simplify_numbers raw_text = Raise e ->
  e = IndexError \/ e = OverflowError.
Proof.
  unfold simplify_numbers.
  destruct (percent_pass_returns raw_text) as (text & ->). cbn [bind].
  unfold quantity_pass. apply number_loop_error. auto.
Qed.

Lemma X9_only_index_and_overflow_witness :
  simplify_numbers (lit "2024") = Raise IndexError
  /\ (IndexError = IndexError \/ IndexError = OverflowError).
Proof.
  split; [vm_compute; reflexivity|].
  apply (@X9_only_index_and_overflow (lit "2024")).
  vm_compute. reflexivity.
Defined.

(* ================================================================== *)
(** ** Quotients of floats *)

Lemma pow2_pos (e : Z) : 0 <= e -> 0 < 2 ^ e.
Proof. intros He. apply Z.pow_pos_nonneg; lia. Qed.

Lemma log2_quotient_le (p q k : Z) :
  0 < p -> 0 < q -> 0 <= k -> p <= q * 2 ^ k ->
  Z.log2 p - Z.log2 q <= k.
Proof.
  intros Hp Hq Hk Hle.
  pose proof (Z.log2_le_mono p (q * 2 ^ k) Hle) as H.
  rewrite Z.log2_mul_pow2 in H by lia. lia.
Qed.

(** A quotient between two integers is rounded to a float between them,
    whose nearest integer lies between them too. *)
Lemma of_ratio_between (p q a b : Z) :
  0 < q -> 1 <= a -> b <= 2 ^ 40 -> a * q <= p <= b * q ->
  exists m e,
    of_ratio p q = Fin m e
    /\ e < 0
    /\ a * 2 ^ (- e) <= m <= b * 2 ^ (- e)
    /\ a <= nearest_integer m e <= b.
Proof.
  intros Hq Ha Hb Hpq.
  assert (Hp : 0 < p) by nia.
  assert (Hl : Z.log2 p - Z.log2 q <= 40).
  { apply log2_quotient_le; try lia.
    change (2 ^ 40) with 1099511627776 in *. nia. }
  unfold of_ratio.
  destruct (Z.eqb_spec p 0) as [|_]; [lia|].
  set (lg := if ge_pow2 p q (Z.log2 p - Z.log2 q)
             then Z.log2 p - Z.log2 q else Z.log2 p - Z.log2 q - 1).
  assert (Hlg : lg <= 40) by (unfold lg; destruct (ge_pow2 _ _ _); lia).
  set (e := Z.max (lg - 52) (-1074)).
  assert (He : -1074 <= e <= -12) by (unfold e; lia).
  destruct (Z.leb_spec 0 e) as [|_]; [lia|].
  assert (HD : 0 < 2 ^ (- e)) by (apply pow2_pos; lia).
  set (m := round_half_even (p * 2 ^ (- e)) q).
  assert (Hm : a * 2 ^ (- e) <= m <= b * 2 ^ (- e)).
  { unfold m. split.
    - apply round_half_even_ge; [exact Hq | nia].
    - apply round_half_even_le; [exact Hq | nia]. }
  assert (Hnear : forall m' e', e' < 0 ->
            a * 2 ^ (- e') <= m' <= b * 2 ^ (- e') ->
            a <= nearest_integer m' e' <= b).
  { intros m' e' He' Hm'. unfold nearest_integer.
    destruct (Z.leb_spec 0 e'); [lia|].
    split; [apply round_half_even_ge | apply round_half_even_le];
      try (apply pow2_pos; lia); lia. }
  destruct (Z.eqb_spec m (2 ^ 53)) as [Hm53|Hm53].
  - destruct (Z.ltb_spec 971 (e + 1)) as [|_]; [lia|].
    exists (2 ^ 52), (e + 1).
    assert (Hm' : a * 2 ^ (- (e + 1)) <= 2 ^ 52 <= b * 2 ^ (- (e + 1))).
    { replace (- e) with (Z.succ (- (e + 1))) in Hm by lia.
      rewrite Z.pow_succ_r in Hm by lia.
      rewrite Hm53 in Hm. change (2 ^ 53) with (2 * 2 ^ 52) in Hm. lia. }
    split; [reflexivity|]. split; [lia|]. split; [exact Hm'|].
    apply Hnear; [lia | exact Hm'].
  - destruct (Z.ltb_spec 971 e) as [|_]; [lia|].
    exists m, e. split; [reflexivity|]. split; [lia|]. split; [exact Hm|].
    apply Hnear; [lia | exact Hm].
Qed.

Lemma compare_scale (a b c : Z) : 0 < c -> (a ?= b) = (a * c ?= b * c).
Proof.
  intros Hc.
  destruct (Z.compare_spec a b) as [->|H|H]; symmetry.
  - apply Z.compare_refl.
  - apply Z.compare_lt_iff. nia.
  - apply Z.compare_gt_iff. nia.
Qed.

(** The two integers whose quotient [x / n] is rounded, for a float [x]
    and an integer [n] that a float holds exactly as [n * 2^(-s) * 2^(-s)]
    scaled: comparing [x] with a multiple of [n] is comparing them. *)
Lemma quotient_compare (m e n s k : Z) :
  0 <= s -> 0 < n ->
  let e0 := Z.min e (- s) in
  compare_Z (Fin m e) (k * n)
  = (m * 2 ^ (e - e0) ?= k * (n * 2 ^ s * 2 ^ (- s - e0))).
Proof.
  intros Hs Hn e0. unfold compare_Z, e0.
  destruct (Z.leb_spec 0 e) as [He|He].
  - rewrite Z.min_r by lia. replace (- s - - s) with 0 by lia.
    rewrite Z.pow_0_r, Z.mul_1_r.
    replace (e - - s) with (e + s) by lia. rewrite Z.pow_add_r by lia.
    pose proof (pow2_pos Hs) as Hps.
    rewrite (compare_scale (m * 2 ^ e) (k * n) Hps).
    f_equal; ring.
  - destruct (Z.le_gt_cases (- s) e) as [Hes|Hes].
    + rewrite Z.min_r by lia. replace (- s - - s) with 0 by lia.
      rewrite Z.pow_0_r, Z.mul_1_r.
      assert (Hpk : 0 < 2 ^ (e - - s)) by (apply pow2_pos; lia).
      rewrite (compare_scale m (k * n * 2 ^ (- e)) Hpk).
      assert (Hpow : 2 ^ s = 2 ^ (- e) * 2 ^ (e - - s))
        by (rewrite <- Z.pow_add_r by lia; f_equal; lia).
      rewrite Hpow. f_equal; ring.
    + rewrite Z.min_l by lia. replace (e - e) with 0 by lia.
      rewrite Z.pow_0_r, Z.mul_1_r.
      assert (Hpow : 2 ^ (- e) = 2 ^ s * 2 ^ (- s - e))
        by (rewrite <- Z.pow_add_r by lia; f_equal; lia).
      rewrite Hpow. f_equal; ring.
Qed.

(** Division by an integer that a float holds exactly, [n * 2^s * 2^(-s)],
    of a float between two multiples of it. *)
Lemma truediv_exact_between (m e n s a b : Z) :
  0 <= s -> 0 < n ->
  of_Z n = Ok (Fin (n * 2 ^ s) (- s)) ->
  1 <= a -> b <= 2 ^ 40 ->
  compare_Z (Fin m e) (a * n) <> Lt ->
  compare_Z (Fin m e) (b * n) <> Gt ->
  exists q r,
    truediv_int (Fin m e) n = Ok q /\ py_round q = Ok r /\ a <= r <= b.
Proof.
  intros Hs Hn Hof Ha Hb Hlo Hhi.
  rewrite (quotient_compare m e a Hs Hn) in Hlo.
  rewrite (quotient_compare m e b Hs Hn) in Hhi.
  cbv zeta in Hlo, Hhi.
  apply Z.compare_ge_iff in Hlo. apply Z.compare_le_iff in Hhi.
  unfold truediv_int. destruct (Z.leb_spec n 0) as [|_]; [lia|].
  rewrite Hof. cbn [bind].
  destruct (@of_ratio_between
              (m * 2 ^ (e - Z.min e (- s)))
              (n * 2 ^ s * 2 ^ (- s - Z.min e (- s))) a b)
    as (m' & e' & -> & _ & _ & Hr); try assumption.
  - apply Z.mul_pos_pos; [apply Z.mul_pos_pos|]; try lia;
      apply pow2_pos; lia.
  - split; [exact Hlo | exact Hhi].
  - exists (Fin m' e'), (nearest_integer m' e').
    split; [reflexivity|]. split; [apply py_round_fin | exact Hr].
Qed.

Lemma compare_Z_mono (x : float) (a b : Z) :
  a <= b -> compare_Z x a = Lt -> compare_Z x b = Lt.
Proof.
  intros Hab. destruct x as [m e|]; [|discriminate].
  destruct (compare_Z_scaled m e) as (v & d & Hd & Hc).
  rewrite !Hc. intros H. change (v < a * d) in H.
  change (v < b * d). nia.
Qed.

(** X10.  A value from 100 up to (not including) 1000 is rounded to a
    multiple of 100 between 100 and 1000, and a value from 1000 up to
    100000 to a multiple of 1000 between 1000 and 100000;
    [round_to_significant] does not raise there. *)
Theorem X10_round_hundreds_thousands (x : float) :
  (fge x 100 -> flt x 1000 ->
   exists n, 1 <= n <= 10 /\ round_to_significant x = Ok (n * 100))
  /\ (fge x 1000 -> flt x 100000 ->
      exists n, 1 <= n <= 100 /\ round_to_significant x = Ok (n * 1000)).
Proof.
  unfold fge, flt, round_to_significant, ltb_Z, geb_Z. split.
  - intros H100 H1000.
    pose proof (@compare_Z_mono x 1000 100000 ltac:(lia) H1000) as H5.
    destruct x as [m e|]; [|discriminate].
    destruct (@truediv_exact_between m e 100 46 1 10)
      as (q & r & Hq & Hr & Hrange);
      try reflexivity; try lia; try assumption.
    + change (10 * 100) with 1000. congruence.
    + exists r. split; [exact Hrange|].
      destruct (compare_Z (Fin m e) 100); try congruence;
        rewrite H5, H1000, Hq; cbn [bind]; rewrite Hr; reflexivity.
  - intros H1000 H5.
    destruct x as [m e|]; [|discriminate].
    assert (H100 : compare_Z (Fin m e) 100 <> Lt).
    { intros H. apply H1000. eapply compare_Z_mono; [|exact H]. lia. }
    destruct (@truediv_exact_between m e 1000 43 1 100)
      as (q & r & Hq & Hr & Hrange);
      try reflexivity; try lia; try assumption.
    + change (100 * 1000) with 100000. congruence.
    + exists r. split; [exact Hrange|].
      destruct (compare_Z (Fin m e) 100); try congruence;
        rewrite H5;
        destruct (compare_Z (Fin m e) 1000); try congruence;
        rewrite Hq; cbn [bind]; rewrite Hr; reflexivity.
Qed.

Lemma X10_round_hundreds_thousands_witness :
  (exists n, 1 <= n <= 10
             /\ round_to_significant (Fin 150 0) = Ok (n * 100))
  /\ (exists n, 1 <= n <= 100
                /\ round_to_significant (Fin 1897 0) = Ok (n * 1000)).
Proof.
  split.
  - apply (proj1 (X10_round_hundreds_thousands (Fin 150 0)));
      vm_compute; congruence.
  - apply (proj2 (X10_round_hundreds_thousands (Fin 1897 0)));
      vm_compute; congruence.
Defined.

(* ================================================================== *)
(** ** Three significant digits *)

Lemma fden_pos (e : Z) : 0 < fden e.
Proof. apply pow2_pos. lia. Qed.

Lemma compare_Z_fraction (m e k : Z) :
  compare_Z (Fin m e) k = (fnum m e ?= k * fden e).
Proof.
  unfold compare_Z, fnum, fden. destruct (Z.leb_spec 0 e) as [He|He].
  - rewrite Z.max_r, Z.max_l by lia. now rewrite Z.pow_0_r, Z.mul_1_r.
  - rewrite Z.max_l, Z.max_r by lia. now rewrite Z.pow_0_r, Z.mul_1_r.
Qed.

(** The operands of a division are the cross products of the fractions,
    up to a common factor. *)
Lemma truediv_operands (m e m2 e2 : Z) :
  exists c,
    0 < c
    /\ m * 2 ^ (e - Z.min e e2) * c = fnum m e * fden e2
    /\ m2 * 2 ^ (e2 - Z.min e e2) * c = fnum m2 e2 * fden e.
Proof.
  unfold fnum, fden.
  exists (2 ^ (Z.max 0 e + Z.max 0 (- e2) - (e - Z.min e e2))).
  split; [apply pow2_pos; lia|].
  split.
  - rewrite <- Z.mul_assoc, <- !Z.pow_add_r by lia.
    rewrite <- Z.mul_assoc, <- !Z.pow_add_r by lia.
    do 2 f_equal. lia.
  - rewrite <- Z.mul_assoc, <- !Z.pow_add_r by lia.
    rewrite <- Z.mul_assoc, <- !Z.pow_add_r by lia.
    do 2 f_equal. lia.
Qed.

(** Rounding a value that lies half a unit or less outside two even
    integers stays between them. *)
Lemma round_half_even_ge_half (m h a : Z) :
  0 < h -> Z.even a = true -> (2 * a - 1) * h <= m ->
  a <= round_half_even m (2 * h).
Proof.
  intros Hh Ha Hm. unfold round_half_even.
  pose proof (Z.div_mod m (2 * h) ltac:(lia)) as Hdm.
  pose proof (Z.mod_pos_bound m (2 * h) ltac:(lia)) as Hr.
  assert (Hq : a - 1 <= m / (2 * h)).
  { apply Z.div_le_lower_bound; [lia|]. nia. }
  destruct (Z.eq_dec (m / (2 * h)) (a - 1)) as [Heq|Hne].
  - rewrite Heq in *.
    assert (Hodd : Z.even (a - 1) = false).
    { replace (a - 1) with (Z.pred a) by lia.
      rewrite Z.even_pred, <- Z.negb_even, Ha. reflexivity. }
    rewrite Hodd.
    destruct (Z.compare_spec (2 * (m mod (2 * h))) (2 * h)); nia.
  - destruct (2 * (m mod (2 * h)) ?= 2 * h);
      [destruct (Z.even (m / (2 * h)))|..]; lia.
Qed.

Lemma round_half_even_le_half (m h b : Z) :
  0 < h -> Z.even b = true -> m <= (2 * b + 1) * h ->
  round_half_even m (2 * h) <= b.
Proof.
  intros Hh Hb Hm. unfold round_half_even.
  pose proof (Z.div_mod m (2 * h) ltac:(lia)) as Hdm.
  pose proof (Z.mod_pos_bound m (2 * h) ltac:(lia)) as Hr.
  assert (Hq : m / (2 * h) < b + 1).
  { apply Z.div_lt_upper_bound; [lia|]. nia. }
  destruct (Z.eq_dec (m / (2 * h)) b) as [Heq|Hne].
  - rewrite Heq in *. rewrite Hb.
    destruct (Z.compare_spec (2 * (m mod (2 * h))) (2 * h)); nia.
  - destruct (2 * (m mod (2 * h)) ?= 2 * h);
      [destruct (Z.even (m / (2 * h)))|..]; lia.
Qed.

(** A quotient within half a unit of the range between two even integers
    is rounded to a float whose nearest integer lies between them. *)
Lemma of_ratio_between_half (p q a b : Z) :
  0 < q -> 1 <= a -> b <= 2 ^ 40 ->
  Z.even a = true -> Z.even b = true ->
  (2 * a - 1) * q <= 2 * p <= (2 * b + 1) * q ->
  exists m e,
    of_ratio p q = Fin m e /\ a <= nearest_integer m e <= b.
Proof.
  intros Hq Ha Hb Hea Heb Hpq.
  assert (Hp : 0 < p) by nia.
  assert (Hl : Z.log2 p - Z.log2 q <= 41).
  { apply log2_quotient_le; try lia.
    change (2 ^ 40) with 1099511627776 in *.
    change (2 ^ 41) with 2199023255552. nia. }
  unfold of_ratio.
  destruct (Z.eqb_spec p 0) as [|_]; [lia|].
  set (lg := if ge_pow2 p q (Z.log2 p - Z.log2 q)
             then Z.log2 p - Z.log2 q else Z.log2 p - Z.log2 q - 1).
  assert (Hlg : lg <= 41) by (unfold lg; destruct (ge_pow2 _ _ _); lia).
  set (e := Z.max (lg - 52) (-1074)).
  assert (He : -1074 <= e <= -11) by (unfold e; lia).
  destruct (Z.leb_spec 0 e) as [|_]; [lia|].
  assert (HD : 2 ^ (- e) = 2 * (2 * 2 ^ (- e - 2))).
  { rewrite <- !Z.pow_succ_r by lia. f_equal. lia. }
  assert (Hh : 0 < 2 ^ (- e - 2)) by (apply pow2_pos; lia).
  set (h := 2 ^ (- e - 2)) in *.
  rewrite HD.
  set (m := round_half_even (p * (2 * (2 * h))) q).
  assert (Hm : (2 * a - 1) * (2 * h) <= m <= (2 * b + 1) * (2 * h)).
  { unfold m. split.
    - apply round_half_even_ge; [exact Hq | nia].
    - apply round_half_even_le; [exact Hq | nia]. }
  destruct (Z.eqb_spec m (2 ^ 53)) as [Hm53|Hm53].
  - destruct (Z.ltb_spec 971 (e + 1)) as [|_]; [lia|].
    exists (2 ^ 52), (e + 1). split; [reflexivity|].
    unfold nearest_integer.
    destruct (Z.leb_spec 0 (e + 1)); [lia|].
    replace (2 ^ (- (e + 1))) with (2 * h)
      by (unfold h; rewrite <- Z.pow_succ_r by lia; f_equal; lia).
    rewrite Hm53 in Hm. change (2 ^ 53) with (2 * 2 ^ 52) in Hm.
    split; [apply round_half_even_ge_half | apply round_half_even_le_half];
      try assumption; lia.
  - destruct (Z.ltb_spec 971 e) as [|_]; [lia|].
    exists m, e. split; [reflexivity|].
    unfold nearest_integer.
    destruct (Z.leb_spec 0 e); [lia|].
    rewrite HD.
    split; [apply round_half_even_ge_half | apply round_half_even_le_half];
      try assumption; lia.
Qed.

Lemma round_half_even_1 (n : Z) : round_half_even n 1 = n.
Proof.
  unfold round_half_even. rewrite Z.mod_1_r, Z.div_1_r. reflexivity.
Qed.

(** [float(n)] for an integer below [2^1023]: a finite float within a
    relative distance of [2^(-53)] from [n]. *)
Lemma of_Z_close (n : Z) :
  0 < n -> n < 2 ^ 1023 ->
  exists m e,
    of_Z n = Ok (Fin m e)
    /\ 0 < fnum m e
    /\ 2 ^ 53 * Z.abs (fnum m e - n * fden e) <= fnum m e.
Proof.
  intros Hn Hbig.
  pose proof (Z.log2_spec n Hn) as [Hlo Hhi].
  pose proof (Z.log2_nonneg n) as HA.
  assert (HA' : Z.log2 n < 1023) by (apply Z.log2_lt_pow2; lia).
  unfold of_Z, of_ratio.
  destruct (Z.eqb_spec n 0) as [|_]; [lia|].
  change (Z.log2 1) with 0. rewrite Z.sub_0_r.
  set (A := Z.log2 n) in *.
  assert (Hge : ge_pow2 n 1 A = true).
  { unfold ge_pow2. destruct (Z.leb_spec 0 A); [|lia].
    apply Z.leb_le. lia. }
  rewrite Hge. rewrite Z.max_l by lia.
  rewrite Z.pow_succ_r in Hhi by lia.
  destruct (Z.leb_spec 0 (A - 52)) as [He|He].
  - assert (Hpe : 0 < 2 ^ (A - 52)) by (apply pow2_pos; lia).
    assert (HpA : 2 ^ A = 2 ^ 52 * 2 ^ (A - 52)).
    { rewrite <- Z.pow_add_r by lia. f_equal. lia. }
    rewrite Z.mul_1_l.
    pose proof (round_half_even_spec n Hpe) as [Hnear _].
    assert (Hm0 : 2 ^ 52 <= round_half_even n (2 ^ (A - 52)) <= 2 ^ 53).
    { split; [apply round_half_even_ge | apply round_half_even_le];
        try assumption; change (2 ^ 53) with (2 * 2 ^ 52); lia. }
    set (m0 := round_half_even n (2 ^ (A - 52))) in *.
    set (E := 2 ^ (A - 52)) in *.
    destruct (Z.eqb_spec m0 (2 ^ 53)) as [Hm53|Hm53].
    + destruct (Z.ltb_spec 971 (A - 52 + 1)) as [|_]; [lia|].
      exists (2 ^ 52), (A - 52 + 1). split; [reflexivity|].
      unfold fnum, fden. rewrite Z.max_r, Z.max_l by lia.
      rewrite Z.pow_0_r, Z.mul_1_r, Z.pow_add_r by lia.
      fold E. change (2 ^ 53) with (2 * 2 ^ 52) in *.
      change (2 ^ 1) with 2. change (2 ^ 52) with 4503599627370496 in *.
      lia.
    + destruct (Z.ltb_spec 971 (A - 52)) as [|_]; [lia|].
      exists m0, (A - 52). split; [reflexivity|].
      unfold fnum, fden. rewrite Z.max_r, Z.max_l by lia.
      rewrite Z.pow_0_r, Z.mul_1_r. fold E.
      change (2 ^ 53) with (2 * 4503599627370496) in *.
      change (2 ^ 52) with 4503599627370496 in *.
      nia.
  - rewrite round_half_even_1.
    assert (Hpe : 0 < 2 ^ (- (A - 52))) by (apply pow2_pos; lia).
    assert (HpA : 2 ^ 53 = 2 * 2 ^ A * 2 ^ (- (A - 52))).
    { rewrite <- Z.pow_succ_r, <- Z.pow_add_r by lia. f_equal. lia. }
    destruct (Z.eqb_spec (n * 2 ^ (- (A - 52))) (2 ^ 53)) as [Hm53|_];
      [nia|].
    destruct (Z.ltb_spec 971 (A - 52)) as [|_]; [lia|].
    exists (n * 2 ^ (- (A - 52))), (A - 52). split; [reflexivity|].
    unfold fnum, fden. rewrite Z.max_l, Z.max_r by lia.
    rewrite Z.pow_0_r, Z.mul_1_r, Z.sub_diag. cbn [Z.abs].
    rewrite Z.mul_0_r. nia.
Qed.

Lemma nearest_integer_close (m e : Z) :
  2 * Z.abs (fnum m e - nearest_integer m e * fden e) <= fden e.
Proof.
  unfold nearest_integer, fnum, fden.
  destruct (Z.leb_spec 0 e) as [He|He].
  - rewrite Z.max_r, Z.max_l by lia. rewrite Z.pow_0_r. lia.
  - rewrite Z.max_l, Z.max_r by lia. rewrite Z.pow_0_r, Z.mul_1_r.
    apply round_half_even_spec. apply pow2_pos. lia.
Qed.

Lemma nearest_integer_le (m e k : Z) :
  compare_Z (Fin m e) k <> Gt -> nearest_integer m e <= k.
Proof.
  rewrite compare_Z_fraction. intros H.
  change (fnum m e <= k * fden e) in H.
  pose proof (nearest_integer_close m e) as Hc.
  pose proof (fden_pos e) as Hd.
  destruct (Z.le_gt_cases (nearest_integer m e) k) as [|Hgt]; [assumption|].
  assert ((k + 1) * fden e <= nearest_integer m e * fden e)
    by (apply Z.mul_le_mono_nonneg_r; lia).
  lia.
Qed.

(** The quotient of a float near [R], with [100 * M <= R < 1000 * M], by
    the float of [M] is rounded to an integer from 100 to 1000. *)
Lemma truediv_three_digits (m e M : Z) :
  1000 <= M -> M < 2 ^ 1023 ->
  100 * M <= nearest_integer m e < 1000 * M ->
  exists q n,
    truediv_int (Fin m e) M = Ok q /\ py_round q = Ok n /\ 100 <= n <= 1000.
Proof.
  intros HM Hbig HR.
  destruct (@of_Z_close M ltac:(lia) Hbig) as (m2 & e2 & Hof & Hy & Hclose).
  pose proof (nearest_integer_close m e) as Hx.
  pose proof (fden_pos e) as Hxd. pose proof (fden_pos e2) as Hyd.
  destruct (truediv_operands m e m2 e2) as (c & Hc & HP & HQ).
  unfold truediv_int. destruct (Z.leb_spec M 0) as [|_]; [lia|].
  rewrite Hof. cbn [bind].
  set (P := m * 2 ^ (e - Z.min e e2)) in *.
  set (Q := m2 * 2 ^ (e2 - Z.min e e2)) in *.
  set (R := nearest_integer m e) in *.
  set (xn := fnum m e) in *. set (xd := fden e) in *.
  set (yn := fnum m2 e2) in *. set (yd := fden e2) in *.
  assert (HW : 1000 * yd <= M * yd) by (apply Z.mul_le_mono_nonneg_r; lia).
  set (W := M * yd) in *.
  change (2 ^ 53) with 9007199254740992 in Hclose.
  assert (Hlo1 : 199 * yn <= 200 * W - yd) by lia.
  assert (Hhi1 : 2000 * W - yd <= 2001 * yn) by lia.
  assert (HRx : (200 * M - 1) * xd <= 2 * xn <= (2000 * M - 1) * xd).
  { assert (100 * M * xd <= R * xd) by (apply Z.mul_le_mono_nonneg_r; lia).
    assert (R * xd <= (1000 * M - 1) * xd)
      by (apply Z.mul_le_mono_nonneg_r; lia).
    lia. }
  assert (Hlo : 199 * (yn * xd) <= 2 * (xn * yd)).
  { assert (199 * yn * xd <= (200 * W - yd) * xd)
      by (apply Z.mul_le_mono_nonneg_r; lia).
    assert ((200 * M - 1) * xd * yd <= 2 * xn * yd)
      by (apply Z.mul_le_mono_nonneg_r; lia).
    unfold W in *. lia. }
  assert (Hhi : 2 * (xn * yd) <= 2001 * (yn * xd)).
  { assert ((2000 * W - yd) * xd <= 2001 * yn * xd)
      by (apply Z.mul_le_mono_nonneg_r; lia).
    assert (2 * xn * yd <= (2000 * M - 1) * xd * yd)
      by (apply Z.mul_le_mono_nonneg_r; lia).
    unfold W in *. lia. }
  rewrite <- HP, <- HQ in Hlo, Hhi.
  assert (HQpos : 0 < Q).
  { assert (0 < Q * c) by (rewrite HQ; apply Z.mul_pos_pos; lia). nia. }
  destruct (@of_ratio_between_half P Q 100 1000) as (m' & e' & -> & Hn);
    try reflexivity; try lia.
  - split.
    + apply Z.mul_le_mono_pos_r with (p := c); [exact Hc | lia].
    + apply Z.mul_le_mono_pos_r with (p := c); [exact Hc | lia].
  - exists (Fin m' e'), (nearest_integer m' e').
    split; [reflexivity|]. split; [apply py_round_fin | exact Hn].
Qed.

Lemma round_to_significant_large (m e : Z) :
  compare_Z (Fin m e) 100000 <> Lt ->
  compare_Z (Fin m e) (2 ^ 1024) = Lt ->
  exists R L n,
    py_round (Fin m e) = Ok R
    /\ 10 ^ (L - 1) <= R < 10 ^ L
    /\ 100 <= n <= 1000
    /\ round_to_significant (Fin m e) = Ok (n * 10 ^ (L - 3)).
Proof.
  intros Hge Hfin.
  pose proof (@nearest_integer_ge m e _ Hge) as HR.
  assert (HRhi : nearest_integer m e <= 2 ^ 1024)
    by (apply nearest_integer_le; congruence).
  destruct (@str_of_Z_bounds (nearest_integer m e) ltac:(lia)) as [Hlo Hhi].
  assert (HL : 6 <= Z.of_nat (length (str_of_Z (nearest_integer m e)))).
  { destruct (Z.le_gt_cases 6
                (Z.of_nat (length (str_of_Z (nearest_integer m e)))))
      as [|Hlt]; [assumption|].
    assert (10 ^ Z.of_nat (length (str_of_Z (nearest_integer m e)))
            <= 10 ^ 5) by (apply Z.pow_le_mono_r; lia).
    change (10 ^ 5) with 100000 in *. lia. }
  set (R := nearest_integer m e) in *.
  set (L := Z.of_nat (length (str_of_Z R))) in *.
  assert (HM : 0 < 10 ^ (L - 3)) by (apply Z.pow_pos_nonneg; lia).
  assert (HM1000 : 10 ^ 3 <= 10 ^ (L - 3)) by (apply Z.pow_le_mono_r; lia).
  assert (H2 : 10 ^ (L - 1) = 100 * 10 ^ (L - 3)).
  { replace (L - 1) with (2 + (L - 3)) by lia.
    rewrite Z.pow_add_r by lia. reflexivity. }
  assert (H3 : 10 ^ L = 1000 * 10 ^ (L - 3)).
  { replace L with (3 + (L - 3)) at 1 by lia.
    rewrite Z.pow_add_r by lia. reflexivity. }
  set (M := 10 ^ (L - 3)) in *.
  change (10 ^ 3) with 1000 in HM1000.
  assert (Hbig : M < 2 ^ 1023).
  { change (2 ^ 1024) with (2 * 2 ^ 1023) in HRhi.
    pose proof (@pow2_pos 1023 ltac:(lia)). lia. }
  destruct (@truediv_three_digits m e M HM1000 Hbig)
    as (q & n & Hq & Hn & Hrange); [fold R; lia|].
  exists R, L, n. split; [apply py_round_fin|].
  split; [split; assumption|]. split; [exact Hrange|].
  unfold round_to_significant, ltb_Z, geb_Z.
  assert (H100 : compare_Z (Fin m e) 100 <> Lt).
  { intros H. apply Hge. eapply compare_Z_mono; [|exact H]. lia. }
  destruct (compare_Z (Fin m e) 100); try congruence;
    destruct (compare_Z (Fin m e) 100000); try congruence;
    rewrite format_comma_0f_digits by (fold R; lia);
    fold R; fold L; fold M; rewrite Hq; cbn [bind]; rewrite Hn;
    reflexivity.
Qed.

(** X11.  A finite value of at least 100000 is rounded to [n * 10^(L-3)],
    where [L] is the number of decimal digits of [round(x)] and [n] is an
    integer from 100 to 1000: only the first three digits can be other
    than zero, and [round_to_significant] does not raise. *)
Theorem X11_round_three_digits (x : float) :
  fge x 100000 -> flt x (2 ^ 1024) ->
  exists R L n,
    py_round x = Ok R
    /\ 10 ^ (L - 1) <= R < 10 ^ L
    /\ 100 <= n <= 1000
    /\ round_to_significant x = Ok (n * 10 ^ (L - 3)).
Proof.
  unfold fge, flt. intros Hge Hfin.
  destruct x as [m e|]; [|discriminate].
  now apply round_to_significant_large.
Qed.

Lemma X11_round_three_digits_witness :
  exists R L n,
    py_round (Fin 324620 0) = Ok R
    /\ 10 ^ (L - 1) <= R < 10 ^ L
    /\ 100 <= n <= 1000
    /\ round_to_significant (Fin 324620 0) = Ok (n * 10 ^ (L - 3)).
Proof.
  apply (@X11_round_three_digits (Fin 324620 0)); vm_compute; congruence.
Defined.

(* ================================================================== *)
(** ** The floats that parsing gives *)

Lemma log2_below (p q : Z) :
  0 < p -> 0 < q ->
  below_pow2 p q
    ((if ge_pow2 p q (Z.log2 p - Z.log2 q)
      then Z.log2 p - Z.log2 q else Z.log2 p - Z.log2 q - 1) + 1).
Proof.
  intros Hp Hq.
  pose proof (Z.log2_spec p Hp) as [_ HpA].
  pose proof (Z.log2_spec q Hq) as [HqB _].
  pose proof (Z.log2_nonneg p) as HA. pose proof (Z.log2_nonneg q) as HB.
  set (A := Z.log2 p) in *. set (B := Z.log2 q) in *.
  unfold below_pow2, ge_pow2.
  destruct (Z.leb_spec 0 (A - B)) as [Hl|Hl].
  - destruct (Z.leb_spec (q * 2 ^ (A - B)) p) as [Hge|Hlt].
    + destruct (Z.leb_spec 0 (A - B + 1)) as [_|]; [|lia].
      assert (H : 2 ^ Z.succ A = 2 ^ B * 2 ^ (A - B + 1)).
      { rewrite <- Z.pow_add_r by lia. f_equal. lia. }
      assert (0 < 2 ^ (A - B + 1)) by (apply pow2_pos; lia).
      nia.
    + replace (A - B - 1 + 1) with (A - B) by lia.
      destruct (Z.leb_spec 0 (A - B)); lia.
  - destruct (Z.leb_spec q (p * 2 ^ (- (A - B)))) as [Hge|Hlt].
    + destruct (Z.leb_spec 0 (A - B + 1)) as [H1|H1].
      * assert (A - B + 1 = 0) as -> by lia. rewrite Z.pow_0_r.
        assert (Z.succ A = B) as E by lia. rewrite E in HpA. lia.
      * assert (H : 2 ^ B = 2 ^ Z.succ A * 2 ^ (- (A - B + 1))).
        { rewrite <- Z.pow_add_r by lia. f_equal. lia. }
        assert (0 < 2 ^ (- (A - B + 1))) by (apply pow2_pos; lia).
        nia.
    + replace (A - B - 1 + 1) with (A - B) by lia.
      destruct (Z.leb_spec 0 (A - B)); lia.
Qed.

Lemma below_scale (p q k e : Z) :
  0 < p -> 0 < q -> below_pow2 p q k -> k <= e + 53 ->
  (if 0 <=? e then p else p * 2 ^ (- e))
  <= 2 ^ 53 * (if 0 <=? e then q * 2 ^ e else q).
Proof.
  unfold below_pow2. intros Hp Hq Hb Hk.
  destruct (Z.leb_spec 0 e) as [He|He].
  - assert (Hpe : 2 ^ (e + 53) = 2 ^ 53 * 2 ^ e)
      by (rewrite <- Z.pow_add_r by lia; f_equal; lia).
    destruct (Z.leb_spec 0 k) as [Hk0|Hk0].
    + assert (2 ^ k <= 2 ^ (e + 53)) by (apply Z.pow_le_mono_r; lia).
      nia.
    + assert (0 < 2 ^ (- k)) by (apply pow2_pos; lia).
      assert (0 < 2 ^ e) by (apply pow2_pos; lia).
      change (2 ^ 53) with 9007199254740992 in *. nia.
  - assert (HD : 0 < 2 ^ (- e)) by (apply pow2_pos; lia).
    destruct (Z.leb_spec 0 k) as [Hk0|Hk0].
    + assert (Hle : 2 ^ (k + - e) <= 2 ^ 53) by (apply Z.pow_le_mono_r; lia).
      rewrite Z.pow_add_r in Hle by lia.
      assert (0 < 2 ^ k) by (apply pow2_pos; lia).
      assert (p * 2 ^ (- e) <= q * 2 ^ k * 2 ^ (- e))
        by (apply Z.mul_le_mono_nonneg_r; lia).
      nia.
    + assert (0 < 2 ^ (- k)) by (apply pow2_pos; lia).
      destruct (Z.le_gt_cases 0 (k - e)) as [Ht|Ht].
      * assert (Hle : 2 ^ (k - e) <= 2 ^ 53)
          by (apply Z.pow_le_mono_r; lia).
        assert (HE : 2 ^ (- e) = 2 ^ (- k) * 2 ^ (k - e))
          by (rewrite <- Z.pow_add_r by lia; f_equal; lia).
        assert (0 < 2 ^ (k - e)) by (apply pow2_pos; lia).
        rewrite HE.
        assert (p * 2 ^ (- k) * 2 ^ (k - e) <= q * 2 ^ (k - e))
          by (apply Z.mul_le_mono_nonneg_r; lia).
        nia.
      * assert (Hle : 2 ^ (- e) <= 2 ^ (- k))
          by (apply Z.pow_le_mono_r; lia).
        change (2 ^ 53) with 9007199254740992. nia.
Qed.

(** A finite float that rounding a quotient gives is below [2^1024]. *)
Lemma of_ratio_finite (p q m e : Z) :
  0 <= p -> 0 < q -> of_ratio p q = Fin m e ->
  compare_Z (Fin m e) (2 ^ 1024) = Lt.
Proof.
  intros Hp Hq. unfold of_ratio.
  destruct (Z.eqb_spec p 0) as [_|Hp0].
  { intros H. injection H as <- <-. reflexivity. }
  pose proof (@log2_below p q ltac:(lia) Hq) as Hb.
  set (lg := if ge_pow2 p q (Z.log2 p - Z.log2 q)
             then Z.log2 p - Z.log2 q else Z.log2 p - Z.log2 q - 1) in *.
  set (e0 := Z.max (lg - 52) (-1074)).
  pose proof (@below_scale p q (lg + 1) e0 ltac:(lia) Hq Hb ltac:(lia))
    as Hs.
  set (num := if 0 <=? e0 then p else p * 2 ^ (- e0)) in *.
  set (den := if 0 <=? e0 then q * 2 ^ e0 else q) in *.
  assert (Hden : 0 < den).
  { unfold den. destruct (Z.leb_spec 0 e0); [|lia].
    apply Z.mul_pos_pos; [lia | apply pow2_pos; lia]. }
  assert (Hm0 : round_half_even num den <= 2 ^ 53)
    by (apply round_half_even_le; [exact Hden | lia]).
  set (m0 := round_half_even num den) in *.
  assert (Hfin : forall m' e', m' < 2 ^ 53 -> e' <= 971 ->
            compare_Z (Fin m' e') (2 ^ 1024) = Lt).
  { intros m' e' Hm' He'. unfold compare_Z.
    destruct (Z.leb_spec 0 e').
    - apply Z.compare_lt_iff.
      assert (2 ^ e' <= 2 ^ 971) by (apply Z.pow_le_mono_r; lia).
      assert (0 < 2 ^ e') by (apply pow2_pos; lia).
      change (2 ^ 1024) with (2 ^ 53 * 2 ^ 971).
      destruct (Z.le_gt_cases m' 0); [|nia].
      assert (m' * 2 ^ e' <= 0) by nia.
      pose proof (@pow2_pos 971 ltac:(lia)).
      pose proof (@pow2_pos 53 ltac:(lia)). nia.
    - apply Z.compare_lt_iff.
      assert (1 <= 2 ^ (- e')) by (pose proof (@pow2_pos (- e')); lia).
      pose proof (@pow2_pos 1024 ltac:(lia)).
      assert (2 ^ 53 <= 2 ^ 1024) by (apply Z.pow_le_mono_r; lia).
      nia. }
  destruct (Z.eqb_spec m0 (2 ^ 53)) as [Hm53|Hm53].
  - destruct (Z.ltb_spec 971 (e0 + 1)) as [|Hle]; [discriminate|].
    intros H. injection H as <- <-. apply Hfin; [reflexivity | lia].
  - destruct (Z.ltb_spec 971 e0) as [|Hle]; [discriminate|].
    intros H. injection H as <- <-. apply Hfin; lia.
Qed.

Lemma digit_in_nonneg (blocks : list N) (c : char) (d : Z) :
  digit_in blocks c = Some d -> 0 <= d.
Proof.
  induction blocks as [|b bs IH]; cbn [digit_in]; [discriminate|].
  destruct (_ && _)%bool; [|exact IH].
  intros H. injection H as <-. lia.
Qed.

Lemma digits_value_nonneg (s : str) :
  forall acc n, 0 <= acc -> digits_value s acc = Some n -> 0 <= n.
Proof.
  induction s as [|c s IH]; intros acc n Hacc; cbn [digits_value].
  - intros H. injection H as <-. exact Hacc.
  - destruct (digit_value c) as [d|] eqn:Ed; [|discriminate].
    apply digit_in_nonneg in Ed. apply IH. lia.
Qed.

(** [float] gives [inf] or a value below [2^1024]. *)
Lemma py_float_finite (s : str) (m e : Z) :
  py_float s = Ok (Fin m e) -> compare_Z (Fin m e) (2 ^ 1024) = Lt.
Proof.
  unfold py_float. destruct (split_at_dot s) as [ip fp].
  destruct (ip ++ _) as [|c u]; [discriminate|].
  destruct (digits_value (c :: u) 0) as [n|] eqn:En; [|discriminate].
  apply digits_value_nonneg in En; [|lia].
  intros H. injection H as H.
  eapply of_ratio_finite; [exact En | | exact H].
  apply Z.pow_pos_nonneg; lia.
Qed.

Lemma round_to_significant_mid (m e : Z) :
  compare_Z (Fin m e) 100 <> Lt ->
  compare_Z (Fin m e) 100000 = Lt ->
  exists r, round_to_significant (Fin m e) = Ok r.
Proof.
  intros H100 H5.
  assert (Hbig : compare_Z (Fin m e) 1000 <> Lt ->
            exists q r, truediv_int (Fin m e) 1000 = Ok q
                        /\ py_round q = Ok r).
  { intros H1000.
    destruct (@truediv_exact_between m e 1000 43 1 100)
      as (q & r & Hq & Hr & _); try reflexivity; try lia; try assumption.
    - change (100 * 1000) with 100000. congruence.
    - eauto. }
  assert (Hsmall : compare_Z (Fin m e) 1000 = Lt ->
            exists q r, truediv_int (Fin m e) 100 = Ok q
                        /\ py_round q = Ok r).
  { intros H1000.
    destruct (@truediv_exact_between m e 100 46 1 10)
      as (q & r & Hq & Hr & _); try reflexivity; try lia; try assumption.
    - change (10 * 100) with 1000. congruence.
    - eauto. }
  unfold round_to_significant, ltb_Z, geb_Z. rewrite H5.
  destruct (compare_Z (Fin m e) 100); try congruence;
    destruct (compare_Z (Fin m e) 1000);
    try (destruct Hbig as (q & r & -> & Hr); [congruence|];
         cbn [bind]; rewrite Hr; cbn [bind]; eauto);
    (destruct Hsmall as (q & r & -> & Hr); [congruence|]);
    cbn [bind]; rewrite Hr; cbn [bind]; eauto.
Qed.

(** Below [2^1024] the rounding returns. *)
Lemma round_to_significant_returns (m e : Z) :
  compare_Z (Fin m e) (2 ^ 1024) = Lt ->
  exists r, round_to_significant (Fin m e) = Ok r.
Proof.
  intros Hfin.
  destruct (compare_Z (Fin m e) 100) eqn:H100.
  - destruct (compare_Z (Fin m e) 100000) eqn:H5.
    + destruct (@round_to_significant_large m e)
        as (R & L & n & _ & _ & _ & ->); [congruence | exact Hfin | eauto].
    + apply round_to_significant_mid; congruence.
    + destruct (@round_to_significant_large m e)
        as (R & L & n & _ & _ & _ & ->); [congruence | exact Hfin | eauto].
  - unfold round_to_significant, ltb_Z. rewrite H100, py_round_fin. eauto.
  - destruct (compare_Z (Fin m e) 100000) eqn:H5.
    + destruct (@round_to_significant_large m e)
        as (R & L & n & _ & _ & _ & ->); [congruence | exact Hfin | eauto].
    + apply round_to_significant_mid; congruence.
    + destruct (@round_to_significant_large m e)
        as (R & L & n & _ & _ & _ & ->); [congruence | exact Hfin | eauto].
Qed.

(* ================================================================== *)
(** ** When the program raises *)

Lemma simplify_regular_number_inf (text : str) (m : match_obj) (pos : nat) :
  convert_german_number (group m 1) = Ok Inf ->
  simplify_regular_number text m pos = Raise OverflowError.
Proof.
  intros HN. unfold simplify_regular_number. rewrite HN. reflexivity.
Qed.

Lemma simplify_regular_number_finite (text : str) (m : match_obj) (pos : nat)
      (mN eN : Z) :
  convert_german_number (group m 1) = Ok (Fin mN eN) ->
  exists s, simplify_regular_number text m pos = Ok (lit "etwa " ++ s).
Proof.
  intros HN. unfold simplify_regular_number. rewrite HN. cbn [bind].
  unfold convert_german_number in HN. apply py_float_finite in HN.
  destruct (round_to_significant_returns _ _ HN) as (r & ->). cbn [bind].
  rewrite py_round_fin. cbn [bind try_except]. eauto.
Qed.

Lemma rewrite_match_raises (text : str) (m : match_obj) (e : exn) :
  In m (finditer pattern text) ->
  rewrite_match text m = Raise e
  <-> is_part_of_date text (m_start m) = false
      /\ ((e = IndexError /\ is_year text (m_start m) = Raise IndexError)
          \/ (e = OverflowError
              /\ is_year text (m_start m) = Ok false
              /\ convert_german_number (group m 1) = Ok Inf)).
Proof.
  intros Hin. destruct (token_number _ _ Hin) as (N & HN).
  unfold rewrite_match.
  destruct (is_part_of_date text (m_start m)); cbn [bind negb].
  { split; [discriminate | intros [? _]; discriminate]. }
  destruct (is_year text (m_start m)) as [[|]|e'] eqn:Ey; cbn [bind negb].
  - split; [discriminate|].
    intros [_ [[_ ?]|[_ [? _]]]]; discriminate.
  - destruct N as [mN eN|].
    + destruct (simplify_regular_number_finite text m (m_start m) HN)
        as (s & ->).
      split; [discriminate|].
      intros [_ [[_ ?]|[_ [_ ?]]]]; congruence.
    + rewrite (simplify_regular_number_inf text m (m_start m) HN).
      split.
      * intros H. injection H as <-. split; [reflexivity|]. right. auto.
      * intros [_ [[_ ?]|[-> _]]]; [discriminate | reflexivity].
  - pose proof (is_year_error _ _ Ey) as ->.
    split.
    + intros H. injection H as <-. split; [reflexivity|]. left. auto.
    + intros [_ [[-> _]|[_ [? _]]]]; [reflexivity | discriminate].
Qed.

Lemma number_loop_raises (text : str) (ms : list match_obj) :
  forall acc last,
    (exists e, number_loop text ms acc last = Raise e)
    <-> exists m e, In m ms /\ rewrite_match text m = Raise e.
Proof.
  induction ms as [|m ms IH]; intros acc last; cbn [number_loop].
  - split; [intros (e & H); discriminate | intros (m & e & [] & _)].
  - destruct (rewrite_match text m) as [s|e'] eqn:Er; cbn [bind].
    + rewrite IH. split.
      * intros (m' & e & Hin & H). exists m', e. split; [now right | exact H].
      * intros (m' & e & [<-|Hin] & H); [congruence|]. eauto.
    + split; [|eauto]. intros _. exists m, e'. split; [now left | exact Er].
Qed.

Lemma number_loop_first_raise (text : str) (ms : list match_obj) (e : exn) :
  forall acc last,
    number_loop text ms acc last = Raise e ->
    exists m, In m ms /\ rewrite_match text m = Raise e.
Proof.
  induction ms as [|m ms IH]; intros acc last; cbn [number_loop];
    [discriminate|].
  destruct (rewrite_match text m) as [s|e'] eqn:Er; cbn [bind].
  - intros H. destruct (IH _ _ H) as (m' & Hin & Hm').
    exists m'. split; [now right | exact Hm'].
  - intros H. injection H as <-. exists m. split; [now left | exact Er].
Qed.

(** X12.  For a token of the quantity pass, [simplify_regular_number]
    raises [OverflowError] when the numeral is read as [inf], and in every
    other case the float is below [2^1024] and a text that starts with
    "etwa " is returned. *)
Theorem X12_token_overflow (text : str) (m : match_obj) (pos : nat) :
  In m (finditer pattern text) ->
  exists N,
    convert_german_number (group m 1) = Ok N
    /\ match N with
       | Inf => simplify_regular_number text m pos = Raise OverflowError
       | Fin _ _ =>
           flt N (2 ^ 1024)
           /\ exists s,
               simplify_regular_number text m pos = Ok (lit "etwa " ++ s)
       end.
Proof.
  intros Hin. destruct (token_number _ _ Hin) as (N & HN).
  exists N. split; [exact HN|]. destruct N as [mN eN|].
  - split.
    + unfold convert_german_number in HN. now apply py_float_finite in HN.
    + eapply simplify_regular_number_finite. exact HN.
  - now apply simplify_regular_number_inf.
Qed.

Lemma X12_token_overflow_witness :
  let text := lit "1.897 Menschen" in
  let m := first_match text in
  exists N,
    convert_german_number (group m 1) = Ok N
    /\ match N with
       | Inf => simplify_regular_number text m 0 = Raise OverflowError
       | Fin _ _ =>
           flt N (2 ^ 1024)
           /\ exists s,
               simplify_regular_number text m 0 = Ok (lit "etwa " ++ s)
       end.
Proof.
  apply (@X12_token_overflow (lit "1.897 Menschen")
           (first_match (lit "1.897 Menschen")) 0%nat).
  left. vm_compute. reflexivity.
Defined.

(** X13.  [simplify_numbers] raises exactly when, in the text that the
    percentage pass leaves, some token is not part of a date and either
    [is_year] raises [IndexError] at it, or [is_year] is false and its
    numeral is read as [inf]; the exception raised is the one of such a
    token. *)
Theorem X13_raises_iff (raw_text text : str) :
  sub percent_pattern simplify_percentage raw_text = Ok text ->
  (forall e, simplify_numbers raw_text = Raise e ->
             exists m, raising_token text m e)
  /\ ((exists m e, raising_token text m e) ->
      exists e, simplify_numbers raw_text = Raise e).
Proof.
  intros Hsub. unfold simplify_numbers. rewrite Hsub. cbn [bind].
  unfold quantity_pass, raising_token. split.
  - intros e H. apply number_loop_first_raise in H.
    destruct H as (m & Hin & Hm). exists m. split; [exact Hin|].
    now apply rewrite_match_raises.
  - intros (m & e & Hin & Hm). apply number_loop_raises.
    exists m, e. split; [exact Hin|]. now apply rewrite_match_raises.
Qed.

Lemma X13_raises_iff_witness :
  (forall e, simplify_numbers (lit "2024") = Raise e ->
             exists m, raising_token (lit "2024") m e)
  /\ ((exists m e, raising_token (lit "2024") m e) ->
      exists e, simplify_numbers (lit "2024") = Raise e).
Proof.
  apply (@X13_raises_iff (lit "2024") (lit "2024")).
  vm_compute. reflexivity.
Defined.

(* ================================================================== *)
(** ** The words after a token *)

Lemma slice_window (s : str) (a k : nat) :
  (a <= length s)%nat ->
  slice s (Z.of_nat a) (Z.of_nat a + Z.of_nat k) = firstn k (skipn a s).
Proof.
  intros Ha. unfold slice, norm_index.
  destruct (Z.ltb_spec (Z.of_nat a) 0); [lia|].
  destruct (Z.ltb_spec (Z.of_nat a + Z.of_nat k) 0); [lia|].
  rewrite (Z.min_l (Z.of_nat a)) by lia.
  rewrite Nat2Z.id.
  destruct (Z.le_gt_cases (Z.of_nat a + Z.of_nat k) (Z.of_nat (length s)))
    as [Hle|Hgt].
  - rewrite Z.min_l by lia. f_equal. lia.
  - rewrite Z.min_r by lia.
    rewrite !firstn_all2; [reflexivity | |]; rewrite length_skipn; lia.
Qed.

(** No decimal digit is a whitespace character. *)
Lemma decimal_not_space (c : char) : isdecimal c = true -> isspace c = false.
Proof.
  intros Hc. destruct (isspace c) eqn:Hs; [exfalso | reflexivity].
  assert (Hin : In c [9; 10; 11; 12; 13; 28; 29; 30; 31; 32; 133; 160; 5760;
                      8192; 8193; 8194; 8195; 8196; 8197; 8198; 8199; 8200;
                      8201; 8202; 8232; 8233; 8239; 8287; 12288]%N).
  { unfold isspace in Hs. cbn [In].
    repeat match type of Hs with
           | (_ || _)%bool = true =>
               apply orb_true_iff in Hs; destruct Hs as [Hs|Hs]
           end;
    repeat match goal with
           | H : (_ && _)%bool = true |- _ =>
               apply andb_true_iff in H; destruct H
           | H : (_ <=? _)%N = true |- _ => apply N.leb_le in H
           | H : (_ =? _)%N = true |- _ => apply N.eqb_eq in H
           end; lia. }
  cbn [In] in Hin.
  repeat destruct Hin as [<-|Hin]; try contradiction;
    vm_compute in Hc; discriminate.
Qed.

(** The first word of a text that goes on a word already begun. *)
Lemma split_run_first (s : str) :
  forall cur, cur <> [] ->
    exists w ws, split_run s cur = (rev cur ++ w) :: ws.
Proof.
  induction s as [|c s IH]; intros cur Hcur; cbn [split_run].
  - destruct cur; [congruence|]. exists [], []. now rewrite app_nil_r.
  - destruct (isspace c).
    + destruct cur; [congruence|].
      exists [], (split_run s []). now rewrite app_nil_r.
    + destruct (IH (c :: cur) ltac:(discriminate)) as (w & ws & ->).
      exists (c :: w), ws. cbn [rev]. now rewrite <- app_assoc.
Qed.

Lemma split_first_char (c : char) (s : str) :
  isspace c = false -> exists w ws, split (c :: s) = (c :: w) :: ws.
Proof.
  intros Hc. unfold split. cbn [split_run]. rewrite Hc.
  destruct (@split_run_first s [c] ltac:(discriminate)) as (w & ws & ->).
  exists w, ws. reflexivity.
Qed.

(** No month name begins with a decimal digit. *)
Lemma mem_months_digit (c : char) (w : str) :
  isdecimal c = true -> mem (c :: w) months = false.
Proof.
  intros Hc. unfold mem.
  destruct (existsb (str_eqb (c :: w)) months) eqn:E; [|reflexivity].
  apply existsb_exists in E. destruct E as (month & Hin & Heq).
  exfalso.
  assert (Hhd : exists x t, month = x :: t /\ isdecimal x = false).
  { unfold months in Hin. cbn [In] in Hin.
    repeat destruct Hin as [<-|Hin]; try contradiction;
      eexists _, _; (split; [reflexivity | vm_compute; reflexivity]). }
  destruct Hhd as (x & t & -> & Hx). cbn [str_eqb] in Heq.
  apply andb_true_iff in Heq. destruct Heq as [Heq _].
  apply N.eqb_eq in Heq. congruence.
Qed.

Lemma token_starts_with_digit (text : str) (m : match_obj) :
  In m (finditer pattern text) ->
  exists c rest, skipn (m_start m) text = c :: rest /\ isdecimal c = true.
Proof.
  intros Hin. apply finditer_here in Hin.
  now apply pattern_starts_with_digit in Hin.
Qed.

(** At a token, the words that follow begin with the token itself, which
    is no month: only the second word decides. *)
Lemma month_lookahead_token (text : str) (m : match_obj) :
  In m (finditer pattern text) ->
  exists w0 ws,
    split (slice text (Z.of_nat (m_start m)) (Z.of_nat (m_start m) + 50))
    = w0 :: ws
    /\ mem w0 months = false.
Proof.
  intros Hin.
  pose proof (finditer_span _ _ _ Hin) as [Hse Hel].
  destruct (token_starts_with_digit _ _ Hin) as (c & rest & Hsk & Hc).
  change 50 with (Z.of_nat 50). rewrite slice_window by lia.
  rewrite Hsk. cbn [firstn].
  match goal with |- context [split (c :: ?t)] =>
    destruct (@split_first_char c t (decimal_not_space c Hc))
      as (w & ws & ->)
  end.
  exists (c :: w), ws. split; [reflexivity | now apply mem_months_digit].
Qed.

(** X14.  At the start of a token of the quantity pass, [is_part_of_date]
    holds exactly when the day rule applies or the second word of the
    fifty characters from there on is a month name: the first word
    begins with the digit of the token and is never a month. *)
Theorem X14_date_by_second_word (text : str) (m : match_obj) :
  In m (finditer pattern text) ->
  let p := Z.of_nat (m_start m) in
  is_part_of_date text (m_start m) = true
  <-> (0 < p
       /\ str_isspace (slice text (p - 2) p) = true
       /\ re_match day_pattern (slice text p (p + 4)) <> None)
      \/ exists w0 w1 ws,
          split (slice text p (p + 50)) = w0 :: w1 :: ws
          /\ mem w1 months = true.
Proof.
  intros Hin p.
  destruct (month_lookahead_token _ _ Hin) as (w0 & ws & Hsp & Hw0).
  fold p in Hsp. unfold is_part_of_date. fold p. rewrite Hsp, Hw0.
  cbn [orb].
  destruct (0 <? p) eqn:Hp; cbn [andb].
  - destruct (str_isspace (slice text (p - 2) p)); cbn [andb].
    + destruct (re_match day_pattern (slice text p (p + 4))) as [d|].
      * split; [|reflexivity]. intros _. left.
        apply Z.ltb_lt in Hp. repeat split; [exact Hp | discriminate].
      * split.
        -- intros H. right. destruct ws as [|w1 ws']; [discriminate|].
           exists w0, w1, ws'. auto.
        -- intros [(_ & _ & H)|(v0 & w1 & ws' & E & H)]; [congruence|].
           injection E as <- ->. exact H.
    + split.
      * intros H. right. destruct ws as [|w1 ws']; [discriminate|].
        exists w0, w1, ws'. auto.
      * intros [(_ & H & _)|(v0 & w1 & ws' & E & H)]; [discriminate|].
        injection E as <- ->. exact H.
  - split.
    + intros H. right. destruct ws as [|w1 ws']; [discriminate|].
      exists w0, w1, ws'. auto.
    + intros [(H & _)|(v0 & w1 & ws' & E & H)].
      * apply Z.ltb_ge in Hp. lia.
      * injection E as <- ->. exact H.
Qed.

Lemma X14_date_by_second_word_witness :
  let text := lit "5 Mai" in
  let m := first_match text in
  let p := Z.of_nat (m_start m) in
  is_part_of_date text (m_start m) = true
  <-> (0 < p
       /\ str_isspace (slice text (p - 2) p) = true
       /\ re_match day_pattern (slice text p (p + 4)) <> None)
      \/ exists w0 w1 ws,
          split (slice text p (p + 50)) = w0 :: w1 :: ws
          /\ mem w1 months = true.
Proof.
  apply (@X14_date_by_second_word (lit "5 Mai") (first_match (lit "5 Mai"))).
  left. vm_compute. reflexivity.
Defined.

(* ================================================================== *)
(** ** The two passes together, and the script *)

(** X15.  A whole percentage from 16 to 49 other than 25, alone before the
    word "Prozent", comes out with "etwa" twice: the percentage pass writes
    "etwa n Prozent", and the quantity pass reads the number in it again. *)
Theorem X15_percent_etwa_twice (n : Z) :
  16 <= n <= 49 -> n <> 25 ->
  sub percent_pattern simplify_percentage (str_of_Z n ++ lit " Prozent")
  = Ok (lit "etwa " ++ str_of_Z n ++ lit " Prozent")
  /\ simplify_numbers (str_of_Z n ++ lit " Prozent")
     = Ok (lit "etwa etwa " ++ str_of_Z n ++ lit " Prozent").
Proof.
  intros Hn H25.
  assert (Hin : In n [16; 17; 18; 19; 20; 21; 22; 23; 24; 25; 26; 27; 28;
                      29; 30; 31; 32; 33; 34; 35; 36; 37; 38; 39; 40; 41;
                      42; 43; 44; 45; 46; 47; 48; 49])
    by (cbn [In]; lia).
  cbn [In] in Hin.
  repeat destruct Hin as [<-|Hin]; try contradiction; try congruence;
    split; vm_compute; reflexivity.
Qed.

Lemma X15_percent_etwa_twice_witness :
  sub percent_pattern simplify_percentage (str_of_Z 30 ++ lit " Prozent")
  = Ok (lit "etwa " ++ str_of_Z 30 ++ lit " Prozent")
  /\ simplify_numbers (str_of_Z 30 ++ lit " Prozent")
     = Ok (lit "etwa etwa " ++ str_of_Z 30 ++ lit " Prozent").
Proof.
  apply (@X15_percent_etwa_twice 30); [lia | discriminate].
Defined.

(** X16.  The script prints ten lines, one for each test case, and no call
    raises. *)
Theorem X16_script_output :
  run_tests test_cases []
  = ([lit "etwa 325.000 Euro wurden gespendet.";
      lit "etwa 2.000 Menschen nahmen teil.";
      lit "jeder Vierte der Bev" ++ [o_uml] ++ lit "lkerung sind betroffen.";
      lit "fast alle stimmten zu.";
      lit "wenige lehnten ab.";
      lit "Bei etwa 39 Grad Celsius ist es sehr hei" ++ [eszett] ++ lit ".";
      lit "denn die Rente steigt um wenige.";
      lit "Im Jahr 2024 gab es etwa 1.000 Ereignisse.";
      lit "Am 1. Januar 2024 waren es etwa 6.000 Teilnehmer.";
      lit "Im Jahr 2025 gab es etwa 2000 Ereignisse."],
     None).
Proof. vm_compute. reflexivity. Qed.
